(** * A sparse-amplitude quantum simulator: model and properties

    Shallow embedding of [my_simulator.py].  The class [QuantumComputer]
    keeps a Python [dict] from basis states (strings of ['0']/['1']) to
    complex amplitudes.  A [dict] iterates in insertion order and several
    methods depend on it, so the register is an association list with the
    [dict] update discipline: assigning to a present key keeps its place,
    assigning to a new key appends.

    The arithmetic on amplitudes is an interface ([Arith]) with two
    instances: IEEE binary64 (what the interpreter runs) and exact real
    numbers (what the linear algebra is about).  Its operations are total;
    the [OverflowError] of [abs] and [**] is a second interface
    ([Overflow]), and the module [Checked] has the three methods that
    compute magnitudes with that exception. *)

From Stdlib Require Import ZArith List String Ascii Bool Lia.
From Stdlib Require Import Sorted Permutation FinFun.
From Stdlib Require Import Floats Reals Lra Psatz.
Import ListNotations.

Local Open Scope string_scope.
Local Open Scope Z_scope.

(* ================================================================== *)
(** ** Python exceptions as an error monad *)

Inductive exn : Type :=
| IndexError      (* sequence index out of range *)
| ValueError      (* int() of a non-digit *)
| OverflowError.  (* abs() or ** with a result too large for a float *)

Inductive result (A : Type) : Type :=
| Ok (a : A)
| Raise (e : exn).

Arguments Ok {A} a.
Arguments Raise {A} e.

Definition bind {A B : Type} (r : result A) (k : A -> result B) : result B :=
  match r with
  | Ok a => k a
  | Raise e => Raise e
  end.

Notation "'do' x <- r ; k" := (bind r (fun x => k))
  (at level 10, x name, r at level 100, k at level 200).

(** A [for] loop threading an accumulator; it stops at the first exception. *)
Fixpoint for_each {A S : Type} (body : S -> A -> result S) (xs : list A) (s : S)
  : result S :=
  match xs with
  | [] => Ok s
  | x :: rest => do s' <- body s x; for_each body rest s'
  end.

(* ================================================================== *)
(** ** Python sequences: indexing, [list(s)], ["".join], [int], [str], ['0' * n] *)

(** [seq[i]]: a negative index counts from the end; anything outside
    [-len, len) raises [IndexError]. *)
Definition py_index (len : nat) (i : Z) : result nat :=
  let j := if i <? 0 then i + Z.of_nat len else i in
  if (0 <=? j) && (j <? Z.of_nat len) then Ok (Z.to_nat j) else Raise IndexError.

Definition py_list (s : string) : list ascii := list_ascii_of_string s.
Definition py_join (l : list ascii) : string := string_of_list_ascii l.

Definition str_get (s : string) (i : Z) : result ascii :=
  do j <- py_index (String.length s) i;
  match String.get j s with
  | Some c => Ok c
  | None => Raise IndexError
  end.

Fixpoint set_nth {A : Type} (n : nat) (x : A) (l : list A) : list A :=
  match l, n with
  | [], _ => []
  | _ :: t, O => x :: t
  | y :: t, S n' => y :: set_nth n' x t
  end.

Definition list_get {A : Type} (l : list A) (i : Z) : result A :=
  do j <- py_index (List.length l) i;
  match nth_error l j with
  | Some x => Ok x
  | None => Raise IndexError
  end.

Definition list_set {A : Type} (l : list A) (i : Z) (x : A) : result (list A) :=
  do j <- py_index (List.length l) i;
  Ok (set_nth j x l).

(** [int(c)] for a one-character string. *)
Definition py_int (c : ascii) : result nat :=
  let n := nat_of_ascii c in
  if (48 <=? n)%nat && (n <=? 57)%nat then Ok (n - 48)%nat else Raise ValueError.

(** [str(n)] for a one-digit number, as produced by [range(2)]. *)
Definition py_str (n : nat) : ascii := ascii_of_nat (48 + n).

(** ['0' * n]: the empty string when [n <= 0]. *)
Definition py_repeat (c : ascii) (n : Z) : string :=
  string_of_list_ascii (repeat c (Z.to_nat n)).

(* ================================================================== *)
(** ** The arithmetic interface *)

Class Arith : Type := {
  complex : Type;
  real : Type;
  czero : complex;                       (* complex(0.0, 0.0) *)
  cone : complex;                        (* complex(1.0, 0.0) *)
  cadd : complex -> complex -> complex;
  cmul : complex -> complex -> complex;
  cabs : complex -> real;                (* abs(z) *)
  rzero : real;                          (* 0.0 *)
  tiny : real;                           (* 1e-9 *)
  radd : real -> real -> real;
  rsq : real -> real;                    (* x ** 2 *)
  rltb : real -> real -> bool            (* x < y *)
}.

(** The operations of [Arith] are total.  In Python two of them are not:
    [abs(z)] and [x ** 2] raise [OverflowError] when their result is too
    large for a float.  For which arguments that happens belongs to the
    arithmetic as well. *)
Class Overflow (AR : Arith) : Type := {
  abs_overflows : complex -> bool;       (* abs(z) raises OverflowError *)
  sq_overflows : real -> bool            (* x ** 2 raises OverflowError *)
}.

(* ================================================================== *)
(** ** The simulator, for any arithmetic *)

Section Simulator.

Context {AR : Arith}.

(** A [dict] from basis state to amplitude, in insertion order. *)
Definition dict : Type := list (string * complex).

Fixpoint dict_get (d : dict) (k : string) (default : complex) : complex :=
  match d with
  | [] => default
  | (k', v) :: rest => if String.eqb k' k then v else dict_get rest k default
  end.

Fixpoint dict_set (d : dict) (k : string) (v : complex) : dict :=
  match d with
  | [] => [(k, v)]
  | (k', v') :: rest =>
      if String.eqb k' k then (k', v) :: rest else (k', v') :: dict_set rest k v
  end.

Definition keys (d : dict) : list string := map fst d.

(** The object: [self.num_qubits] and [self.amplitudes]. *)
Record QuantumComputer : Type := {
  num_qubits : Z;
  amplitudes : dict
}.

(** [__init__] *)
Definition __init__ (n : Z) : QuantumComputer :=
  let initial_state := py_repeat "0"%char n in
  {| num_qubits := n; amplitudes := dict_set [] initial_state cone |}.

(** [_get_amplitude] *)
Definition _get_amplitude (self : QuantumComputer) (basis_state : string) : complex :=
  dict_get (amplitudes self) basis_state czero.

(** A gate matrix is a list of rows. *)
Definition matrix : Type := list (list complex).

Definition mat_get (m : matrix) (r c : nat) : result complex :=
  do row <- list_get m (Z.of_nat r);
  list_get row (Z.of_nat c).

(** One pass of the inner loop [for row_index in range(2)]. *)
Definition gate_row (gate_matrix : matrix) (target_qubit : Z)
    (basis_state : string) (current_amp : complex) (bit_to_change : nat)
    (next_amplitudes : dict) (row_index : nat) : result dict :=
  do m <- mat_get gate_matrix row_index bit_to_change;
  let amp_contribution := cmul m current_amp in
  if rltb (cabs amp_contribution) tiny then Ok next_amplitudes
  else
    do state_list <- list_set (py_list basis_state) target_qubit (py_str row_index);
    let new_basis_state := py_join state_list in
    let current_total := dict_get next_amplitudes new_basis_state czero in
    Ok (dict_set next_amplitudes new_basis_state (cadd current_total amp_contribution)).

(** One pass of the outer loop over [self.amplitudes.items()]. *)
Definition gate_item (gate_matrix : matrix) (target_qubit : Z)
    (next_amplitudes : dict) (item : string * complex) : result dict :=
  let (basis_state, current_amp) := item in
  do ch <- str_get basis_state target_qubit;
  do bit_to_change <- py_int ch;
  for_each (gate_row gate_matrix target_qubit basis_state current_amp bit_to_change)
           (seq 0 2) next_amplitudes.

(** [apply_gate]: the new dictionary replaces the old one at the end, so an
    exception leaves the object as it was. *)
Definition apply_gate (self : QuantumComputer) (gate_matrix : matrix)
    (target_qubit : Z) : result QuantumComputer :=
  do next_amplitudes <- for_each (gate_item gate_matrix target_qubit)
                                 (amplitudes self) [];
  Ok {| num_qubits := num_qubits self; amplitudes := next_amplitudes |}.

(** [(partner_state, basis_state) in states_to_swap] *)
Definition pair_eqb (p q : string * string) : bool :=
  String.eqb (fst p) (fst q) && String.eqb (snd p) (snd q).

Definition pair_in (p : string * string) (l : list (string * string)) : bool :=
  existsb (pair_eqb p) l.

(** The first loop of [entangle_qubits], over [self.amplitudes.keys()]. *)
Definition entangle_collect (control_qubit target_qubit : Z)
    (states_to_swap : list (string * string)) (basis_state : string)
  : result (list (string * string)) :=
  do ch <- str_get basis_state control_qubit;
  if Ascii.eqb ch "1"%char then
    let state_list := py_list basis_state in
    do old <- list_get state_list target_qubit;
    do state_list <- list_set state_list target_qubit
                       (if Ascii.eqb old "0"%char then "1"%char else "0"%char);
    let partner_state := py_join state_list in
    if pair_in (partner_state, basis_state) states_to_swap
    then Ok states_to_swap
    else Ok (states_to_swap ++ [(basis_state, partner_state)])%list
  else Ok states_to_swap.

(** The second loop: the dictionary is updated in place, pair after pair. *)
Definition entangle_swap (d : dict) (pair : string * string) : dict :=
  let (state_a, state_b) := pair in
  let amp_a := dict_get d state_a czero in
  let amp_b := dict_get d state_b czero in
  dict_set (dict_set d state_a amp_b) state_b amp_a.

(** [entangle_qubits]: only the first loop can raise, and it does not touch
    the dictionary. *)
Definition entangle_qubits (self : QuantumComputer) (control_qubit target_qubit : Z)
  : result QuantumComputer :=
  do states_to_swap <- for_each (entangle_collect control_qubit target_qubit)
                                (keys (amplitudes self)) [];
  Ok {| num_qubits := num_qubits self;
        amplitudes := fold_left entangle_swap states_to_swap (amplitudes self) |}.

(** [sorted(self.amplitudes.items())].  Items are compared as tuples; the
    keys of a dictionary are pairwise different, so the key decides. *)
Fixpoint insert_item (x : string * complex) (l : dict) : dict :=
  match l with
  | [] => [x]
  | y :: rest =>
      if String.leb (fst x) (fst y) then x :: l else y :: insert_item x rest
  end.

Definition sorted (d : dict) : dict := fold_right insert_item [] d.

(** The loop of [collapse_to_measurement]: [Some s] when it returns [s] from
    inside the loop. *)
Fixpoint collapse_walk (rand cumulative_prob : real) (sorted_states : dict)
  : option string :=
  match sorted_states with
  | [] => None
  | (basis_state, amp) :: rest =>
      let cumulative_prob := radd cumulative_prob (rsq (cabs amp)) in
      if rltb rand cumulative_prob then Some basis_state
      else collapse_walk rand cumulative_prob rest
  end.

(** [collapse_to_measurement], with the value drawn by [random.random()] as
    an argument.  It returns the outcome and the object afterwards. *)
Definition collapse_to_measurement (self : QuantumComputer) (rand : real)
  : string * QuantumComputer :=
  let sorted_states := sorted (amplitudes self) in
  match collapse_walk rand rzero sorted_states with
  | Some basis_state =>
      (basis_state,
       {| num_qubits := num_qubits self; amplitudes := [(basis_state, cone)] |})
  | None =>
      (match sorted_states with
       | [] => ""
       | _ => fst (last sorted_states ("", czero))
       end, self)
  end.

End Simulator.

(* ================================================================== *)
(** ** Vocabulary of the specification *)

Section Vocabulary.

Context {AR : Arith}.

Definition is_bit (c : ascii) : bool :=
  Ascii.eqb c "0"%char || Ascii.eqb c "1"%char.

(** A basis state of an [n]-qubit register. *)
Definition bitstring (n : nat) (s : string) : bool :=
  Nat.eqb (String.length s) n && forallb is_bit (py_list s).

Fixpoint distinct (l : list string) : bool :=
  match l with
  | [] => true
  | x :: rest => negb (existsb (String.eqb x) rest) && distinct rest
  end.

(** A register over [n] qubits: a dictionary (no key twice) whose keys are
    basis states of length [n]. *)
Definition register (n : nat) (d : dict) : bool :=
  distinct (keys d) && forallb (bitstring n) (keys d).

(** An index that Python rejects on a sequence of length [n]. *)
Definition out_of_range (n : nat) (i : Z) : Prop :=
  Z.of_nat n <= i \/ i < - Z.of_nat n.

(** The bit at position [j] is replaced by the other one, as
    [entangle_qubits] computes the partner state. *)
Definition flip_at (j : nat) (s : string) : string :=
  py_join (set_nth j (match nth_error (py_list s) j with
                      | Some c => if Ascii.eqb c "0"%char then "1"%char else "0"%char
                      | None => "0"%char
                      end) (py_list s)).

(** Position [j] is overwritten with the digit [r]. *)
Definition put_at (j : nat) (r : nat) (s : string) : string :=
  py_join (set_nth j (py_str r) (py_list s)).

(** The value of [cumulative_prob] after [m] turns of the measurement loop
    over the list [l]. *)
Definition cumulative_after (l : dict) (m : nat) : real :=
  fold_left (fun acc item => radd acc (rsq (cabs (snd item)))) (firstn m l) rzero.

(** The sum of [abs(amp)**2] over the register. *)
Definition total_probability (d : dict) : real :=
  fold_left (fun acc kv => radd acc (rsq (cabs (snd kv)))) d rzero.

(** The bit of [s] at position [j], as [int(basis_state[target_qubit])]. *)
Definition bit_at (j : nat) (s : string) : nat :=
  match String.get j s with
  | Some c => if Ascii.eqb c "1"%char then 1 else 0
  | None => 0
  end.

(** [basis_state[control_qubit] == '1'] *)
Definition has_control (j : nat) (s : string) : bool :=
  match String.get j s with
  | Some c => Ascii.eqb c "1"%char
  | None => false
  end.

Definition flip_char (c : ascii) : ascii :=
  if Ascii.eqb c "0"%char then "1"%char else "0"%char.

(** The order in which [sorted] puts the items. *)
Definition key_le (x y : string * complex) : Prop :=
  String.leb (fst x) (fst y) = true.

(** *** Gate application as a list of contributions *)

(** [next[k] = next.get(k, 0) + c], for each contribution in turn. *)
Definition accumulate (next : dict) (cs : list (string * complex)) : dict :=
  fold_left (fun d kc => dict_set d (fst kc) (cadd (dict_get d (fst kc) czero) (snd kc)))
            cs next.

(** What one turn of the inner loop adds: nothing, or one amplitude for one
    state. *)
Definition row_contribution (gate_matrix : matrix) (target_qubit : Z)
    (basis_state : string) (current_amp : complex) (bit_to_change row_index : nat)
  : result (list (string * complex)) :=
  do m <- mat_get gate_matrix row_index bit_to_change;
  if rltb (cabs (cmul m current_amp)) tiny then Ok []
  else
    do state_list <- list_set (py_list basis_state) target_qubit (py_str row_index);
    Ok [(py_join state_list, cmul m current_amp)].

Definition item_contributions (gate_matrix : matrix) (target_qubit : Z)
    (item : string * complex) : result (list (string * complex)) :=
  do ch <- str_get (fst item) target_qubit;
  do bit_to_change <- py_int ch;
  do c0 <- row_contribution gate_matrix target_qubit (fst item) (snd item)
             bit_to_change 0;
  do c1 <- row_contribution gate_matrix target_qubit (fst item) (snd item)
             bit_to_change 1;
  Ok (c0 ++ c1)%list.

Fixpoint contributions (gate_matrix : matrix) (target_qubit : Z) (d : dict)
  : result (list (string * complex)) :=
  match d with
  | [] => Ok []
  | item :: rest =>
      do c <- item_contributions gate_matrix target_qubit item;
      do cs <- contributions gate_matrix target_qubit rest;
      Ok (c ++ cs)%list
  end.

(** A contribution is kept unless its magnitude is below the threshold. *)
Definition kept (k : string) (c : complex) : list (string * complex) :=
  if rltb (cabs c) tiny then [] else [(k, c)].

(** *** Gate application when no exception can occur *)

(** [gate_matrix[r][c]] of a matrix that has it. *)
Definition entry (m : matrix) (r c : nat) : complex := nth c (nth r m []) czero.

Definition two_by_two (m : matrix) : bool :=
  match m with
  | [[_; _]; [_; _]] => true
  | _ => false
  end.

Definition item_kept (m : matrix) (j : nat) (item : string * complex)
  : list (string * complex) :=
  (kept (put_at j 0 (fst item))
        (cmul (entry m 0 (bit_at j (fst item))) (snd item)) ++
   kept (put_at j 1 (fst item))
        (cmul (entry m 1 (bit_at j (fst item))) (snd item)))%list.

(** *** The entangling step when no exception can occur *)

(** One turn of the first loop when no index error can occur. *)
Definition collect_step (cj tj : nat) (acc : list (string * string)) (s : string)
  : list (string * string) :=
  if has_control cj s then
    if pair_in (flip_at tj s, s) acc then acc
    else (acc ++ [(s, flip_at tj s)])%list
  else acc.

(** Both members of every pair. *)
Definition members (ps : list (string * string)) : list string :=
  flat_map (fun p => [fst p; snd p]) ps.

(** What the first loop has established after the keys [visited]. *)
Record collected (cj tj : nat) (visited : list string)
    (acc : list (string * string)) : Prop := {
  col_pairs : forall a b, In (a, b) acc ->
                In a visited /\ has_control cj a = true /\ b = flip_at tj a;
  col_nodup : NoDup (members acc);
  col_cover : forall s, In s visited -> has_control cj s = true ->
                In s (members acc)
}.

(** *** What is stored *)

(** The magnitude is not below the threshold. *)
Definition big (c : complex) : Prop := rltb (cabs c) tiny = false.



End Vocabulary.

(** Every basis state of [n] qubits. *)
Fixpoint all_states (n : nat) : list string :=
  match n with
  | O => [""]
  | S m => (map (String "0"%char) (all_states m) ++
            map (String "1"%char) (all_states m))%list
  end.

(* ================================================================== *)
(** ** Instance: IEEE binary64, the arithmetic of the interpreter *)

Module F64.

Local Open Scope float_scope.

Definition cplx : Type := float * float.

(** [abs(z)] is the C library's [hypot]; here its textbook formula. *)
Definition c_abs (z : cplx) : float :=
  PrimFloat.sqrt (fst z * fst z + snd z * snd z).

Definition c_add (x y : cplx) : cplx := (fst x + fst y, snd x + snd y).

Definition c_mul (x y : cplx) : cplx :=
  (fst x * fst y - snd x * snd y, fst x * snd y + snd x * fst y).

(** [x ** 2] is the C library's [pow(x, 2.0)]; the product [x * x] is its
    correctly rounded value. *)
Definition square (x : float) : float := x * x.

(** The literal [1e-9], rounded to the nearest binary64 number. *)
Definition eps : float := 0x1.12e0be826d695p-30.

#[export] Instance arith : Arith := {|
  complex := cplx;
  real := float;
  czero := (0, 0);
  cone := (1, 0);
  cadd := c_add;
  cmul := c_mul;
  cabs := c_abs;
  rzero := 0;
  tiny := eps;
  radd := PrimFloat.add;
  rsq := square;
  rltb := PrimFloat.ltb
|}.

(** A Python [float] used where a complex number is expected. *)
Definition of_float (x : float) : cplx := (x, 0).

(** [1/math.sqrt(2)] *)
Definition inv_sqrt2 : float := 1 / PrimFloat.sqrt 2.

Definition Hadamard : matrix :=
  [[of_float inv_sqrt2; of_float inv_sqrt2];
   [of_float inv_sqrt2; of_float (- inv_sqrt2)]].

Definition PauliX : matrix :=
  [[of_float 0; of_float 1]; [of_float 1; of_float 0]].

End F64.

(* ================================================================== *)
(** ** Instance: exact real arithmetic *)

Module Exact.

Local Open Scope R_scope.

Definition cplx : Type := R * R.

Definition c_abs (z : cplx) : R := sqrt (fst z * fst z + snd z * snd z).

Definition c_add (x y : cplx) : cplx := (fst x + fst y, snd x + snd y).

Definition c_mul (x y : cplx) : cplx :=
  (fst x * fst y - snd x * snd y, fst x * snd y + snd x * fst y).

Definition eps : R := / 1000000000.

#[export] Instance arith : Arith := {|
  complex := cplx;
  real := R;
  czero := (0, 0);
  cone := (1, 0);
  cadd := c_add;
  cmul := c_mul;
  cabs := c_abs;
  rzero := 0;
  tiny := eps;
  radd := Rplus;
  rsq := fun x => x * x;
  rltb := fun x y => if Rlt_dec x y then true else false
|}.

(** No real number is too large. *)
#[export] Instance never : Overflow arith := {|
  abs_overflows := fun _ => false;
  sq_overflows := fun _ => false
|}.

(** *** Vocabulary of the normalization property *)

Definition norm2 (z : cplx) : R := fst z * fst z + snd z * snd z.


Definition Rsum {A : Type} (f : A -> R) (l : list A) : R :=
  fold_right (fun x acc => f x + acc) 0 l.

Definition Csum {A : Type} (f : A -> cplx) (l : list A) : cplx :=
  fold_right (fun x acc => c_add (f x) acc) (0, 0) l.

(** A contribution as it reaches the sum: nothing when it is dropped. *)
Definition keep0 (c : cplx) : cplx :=
  if rltb (cabs c) tiny then (0, 0) else c.

(** The amplitude of [k] after the gate, from the amplitudes [f] before. *)
Definition gate_at (m : matrix) (j : nat) (f : string -> cplx) (k : string) : cplx :=
  c_add (keep0 (c_mul (entry m (bit_at j k) 0) (f (put_at j 0 k))))
        (keep0 (c_mul (entry m (bit_at j k) 1) (f (put_at j 1 k)))).





Definition pick (k : string) (kc : string * cplx) : cplx :=
  if String.eqb (fst kc) k then snd kc else (0, 0).


(** A rotation with real entries. *)
Definition real_matrix (a b c d : R) : matrix :=
  [[(a, 0); (b, 0)]; [(c, 0); (d, 0)]].

Definition rotation : matrix := real_matrix (4 / 5) (3 / 5) (- 3 / 5) (4 / 5).



(** One qubit in the state [0]. *)
Definition single_zero : QuantumComputer :=
  {| num_qubits := 1; amplitudes := [("0", (1, 0))] |}.


End Exact.

(* ================================================================== *)
(** ** The entangled-pair scenario: the data *)

Module Scenario.

Import F64.

Definition computer (n : Z) (d : list (string * cplx)) : QuantumComputer :=
  @Build_QuantumComputer arith n d.

Definition amp (x : float) : cplx := of_float x.

(** [QuantumComputer(2)] *)
Definition fresh : QuantumComputer := __init__ 2.


(** The Bell pair as the specification writes it. *)
Definition bell_pair : QuantumComputer :=
  computer 2 [("00", amp inv_sqrt2); ("11", amp inv_sqrt2)].

(** The same two entries, entered in the other order. *)
Definition bell_pair_reversed : QuantumComputer :=
  computer 2 [("11", amp inv_sqrt2); ("00", amp inv_sqrt2)].

(** The literals [0.3] and [0.9], rounded to the nearest binary64 number. *)
Definition draw_03 : float := 0x1.3333333333333p-2.
Definition draw_09 : float := 0x1.ccccccccccccdp-1.

(** A register holding the single state [10]. *)
Definition only_10 : QuantumComputer := computer 2 [("10", amp 1)].

(** The register after the Hadamard gate on qubit 0 of [fresh]. *)
Definition plus_zero : QuantumComputer :=
  computer 2 [("00", amp inv_sqrt2); ("10", amp inv_sqrt2)].


(** A register whose probabilities sum to one half, state [1] stored first. *)
Definition halves : QuantumComputer :=
  computer 1 [("1", amp 0.5); ("0", amp 0.5)].

End Scenario.

(* ================================================================== *)
(** ** The display *)

Section Display.

Context {AR : Arith}.

(** What [read_state] prints, line by line.  A state line carries the
    values that the format string renders: the state, the amplitude and the
    probability. *)
Inductive shown : Type :=
| Banner                       (* --- Current Quantum State --- *)
| EmptyUniverse                (* The universe is empty. *)
| StateLine (basis_state : string) (amp : complex) (probability : real)
| Rule.                        (* -------------------------- *)

(** The body of the loop of [read_state]; [probability > 1e-9] is the
    comparison [1e-9 < probability]. *)
Definition show_item (item : string * complex) : list shown :=
  let probability := rsq (cabs (snd item)) in
  if rltb tiny probability
  then [StateLine (fst item) (snd item) probability]
  else [].

(** [read_state]: it only prints, the object is as before. *)
Definition read_state (self : QuantumComputer) : list shown :=
  Banner ::
  match amplitudes self with
  | [] => [EmptyUniverse]
  | _ :: _ => (flat_map show_item (sorted (amplitudes self)) ++ [Rule])%list
  end.

End Display.

(* ================================================================== *)
(** ** The methods with [OverflowError] *)

(** [apply_gate], [read_state] and [collapse_to_measurement] compute
    magnitudes, so they can raise [OverflowError].  Here they are again with
    that exception; everything else is as above. *)
Module Checked.

Section Methods.

Context {AR : Arith} {OV : Overflow AR}.

(** [abs(z)] *)
Definition py_abs (z : complex) : result real :=
  if abs_overflows z then Raise OverflowError else Ok (cabs z).

(** [x ** 2] *)
Definition py_sq (x : real) : result real :=
  if sq_overflows x then Raise OverflowError else Ok (rsq x).

(** [abs(amp)**2] *)
Definition probability_of (amp : complex) : result real :=
  do magnitude <- py_abs amp; py_sq magnitude.

(** One pass of the inner loop of [apply_gate]. *)
Definition gate_row (gate_matrix : matrix) (target_qubit : Z)
    (basis_state : string) (current_amp : complex) (bit_to_change : nat)
    (next_amplitudes : dict) (row_index : nat) : result dict :=
  do m <- mat_get gate_matrix row_index bit_to_change;
  let amp_contribution := cmul m current_amp in
  do magnitude <- py_abs amp_contribution;
  if rltb magnitude tiny then Ok next_amplitudes
  else
    do state_list <- list_set (py_list basis_state) target_qubit (py_str row_index);
    let new_basis_state := py_join state_list in
    let current_total := dict_get next_amplitudes new_basis_state czero in
    Ok (dict_set next_amplitudes new_basis_state (cadd current_total amp_contribution)).

Definition gate_item (gate_matrix : matrix) (target_qubit : Z)
    (next_amplitudes : dict) (item : string * complex) : result dict :=
  let (basis_state, current_amp) := item in
  do ch <- str_get basis_state target_qubit;
  do bit_to_change <- py_int ch;
  for_each (gate_row gate_matrix target_qubit basis_state current_amp bit_to_change)
           (seq 0 2) next_amplitudes.

(** [apply_gate]: an exception leaves the object as it was. *)
Definition apply_gate (self : QuantumComputer) (gate_matrix : matrix)
    (target_qubit : Z) : result QuantumComputer :=
  do next_amplitudes <- for_each (gate_item gate_matrix target_qubit)
                                 (amplitudes self) [];
  Ok {| num_qubits := num_qubits self; amplitudes := next_amplitudes |}.

(** The loop of [collapse_to_measurement]. *)
Fixpoint collapse_walk (rand cumulative_prob : real) (sorted_states : dict)
  : result (option string) :=
  match sorted_states with
  | [] => Ok None
  | (basis_state, amp) :: rest =>
      do probability <- probability_of amp;
      let cumulative_prob := radd cumulative_prob probability in
      if rltb rand cumulative_prob then Ok (Some basis_state)
      else collapse_walk rand cumulative_prob rest
  end.

(** [collapse_to_measurement]: the dictionary is replaced only when a state
    is chosen, so an exception leaves the object as it was. *)
Definition collapse_to_measurement (self : QuantumComputer) (rand : real)
  : result (string * QuantumComputer) :=
  let sorted_states := sorted (amplitudes self) in
  do chosen <- collapse_walk rand rzero sorted_states;
  match chosen with
  | Some basis_state =>
      Ok (basis_state,
          {| num_qubits := num_qubits self; amplitudes := [(basis_state, cone)] |})
  | None =>
      Ok (match sorted_states with
          | [] => ""
          | _ => fst (last sorted_states ("", czero))
          end, self)
  end.

(** The loop of [read_state]: the lines printed, and the exception that
    ended the loop if there was one. *)
Fixpoint show_items (sorted_states : dict) : list shown * option exn :=
  match sorted_states with
  | [] => ([], None)
  | (basis_state, amp) :: rest =>
      match probability_of amp with
      | Raise e => ([], Some e)
      | Ok probability =>
          let line := if rltb tiny probability
                      then [StateLine basis_state amp probability] else [] in
          let (lines, e) := show_items rest in
          ((line ++ lines)%list, e)
      end
  end.

(** [read_state]: what it prints, and the exception it raises if any.  The
    closing rule is printed after the loop. *)
Definition read_state (self : QuantumComputer) : list shown * option exn :=
  match amplitudes self with
  | [] => ([Banner; EmptyUniverse], None)
  | _ :: _ =>
      let (lines, e) := show_items (sorted (amplitudes self)) in
      match e with
      | None => (Banner :: lines ++ [Rule], None)%list
      | Some _ => (Banner :: lines, e)
      end
  end.

(** *** Vocabulary: where a magnitude overflows *)

(** [abs(amp)**2] raises. *)
Definition amp_overflows (amp : complex) : bool :=
  abs_overflows amp || sq_overflows (cabs amp).

(** [abs] raises on one of the two products of an item with the matrix. *)
Definition item_overflows (m : matrix) (j : nat) (item : string * complex) : bool :=
  abs_overflows (cmul (entry m 0 (bit_at j (fst item))) (snd item)) ||
  abs_overflows (cmul (entry m 1 (bit_at j (fst item))) (snd item)).

End Methods.

End Checked.

(* ================================================================== *)
(** ** The entangling step as a function, a gate in exact arithmetic, the script *)

(** The state whose amplitude a basis state receives in the entangling
    step: its partner when the control bit is set, itself otherwise. *)
Definition partner (cj tj : nat) (k : string) : string :=
  if has_control cj k then flip_at tj k else k.

Module ExactGates.

Import Exact.
Local Open Scope R_scope.

(** [PauliX]: its entries 0 and 1 are the same numbers in both
    arithmetics. *)
Definition PauliX : matrix := [[(0, 0); (1, 0)]; [(1, 0); (0, 0)]].

End ExactGates.

Module Driver.

Import F64.

(** The script under [__main__], with the value drawn by the measurement as
    an argument.  It returns what the four calls of [read_state] show, the
    outcome and the object at the end. *)
Definition main (rand : float)
  : result (list (list shown) * string * QuantumComputer) :=
  let my_computer := __init__ 2 in
  let shown1 := read_state my_computer in
  do my_computer <- apply_gate my_computer Hadamard 0;
  let shown2 := read_state my_computer in
  do my_computer <- entangle_qubits my_computer 0 1;
  let shown3 := read_state my_computer in
  let (final_outcome, my_computer) := collapse_to_measurement my_computer rand in
  let shown4 := read_state my_computer in
  Ok ([shown1; shown2; shown3; shown4], final_outcome, my_computer).

End Driver.

(** Registers for the runs of the later sections. *)
Module Samples.

Import F64 Scenario.

(** The entries of [halves], entered in the other order. *)
Definition halves_reordered : QuantumComputer :=
  computer 1 [("0", amp 0.5); ("1", amp 0.5)].

(** Keys that are no bit strings: a digit above 1 and a letter. *)
Definition digit_two : QuantumComputer := computer 1 [("2", amp 1)].
Definition letter_x : QuantumComputer := computer 1 [("x", amp 1)].

End Samples.

Module ExactSamples.

Import Exact.
Local Open Scope R_scope.

(** Two qubits in the state [10], with real numbers for the floats. *)
Definition one_zero : QuantumComputer :=
  {| num_qubits := 2; amplitudes := [("10", (1, 0))] |}.

End ExactSamples.

(* ================================================================== *)
(** ** Sequences and indices *)

Lemma py_index_in (len : nat) (i : Z) :
  0 <= i < Z.of_nat len -> py_index len i = Ok (Z.to_nat i).
Proof.
  intros H. unfold py_index.
  destruct (i <? 0) eqn:E; [apply Z.ltb_lt in E; lia|].
  replace (0 <=? i) with true by (symmetry; apply Z.leb_le; lia).
  replace (i <? Z.of_nat len) with true by (symmetry; apply Z.ltb_lt; lia).
  reflexivity.
Qed.

Lemma py_index_negative (len : nat) (i : Z) :
  - Z.of_nat len <= i < 0 -> py_index len i = Ok (Z.to_nat (i + Z.of_nat len)).
Proof.
  intros H. unfold py_index.
  replace (i <? 0) with true by (symmetry; apply Z.ltb_lt; lia).
  replace (0 <=? i + Z.of_nat len) with true by (symmetry; apply Z.leb_le; lia).
  replace (i + Z.of_nat len <? Z.of_nat len) with true
    by (symmetry; apply Z.ltb_lt; lia).
  reflexivity.
Qed.

Lemma py_index_out (len : nat) (i : Z) :
  out_of_range len i -> py_index len i = Raise IndexError.
Proof.
  intros [H|H]; unfold py_index.
  - destruct (i <? 0) eqn:E; [apply Z.ltb_lt in E; lia|].
    replace (i <? Z.of_nat len) with false by (symmetry; apply Z.ltb_ge; lia).
    now rewrite andb_false_r.
  - replace (i <? 0) with true by (symmetry; apply Z.ltb_lt; lia).
    replace (0 <=? i + Z.of_nat len) with false
      by (symmetry; apply Z.leb_gt; lia).
    reflexivity.
Qed.

Lemma length_py_list (s : string) : List.length (py_list s) = String.length s.
Proof. induction s; simpl; congruence. Qed.

Lemma length_py_join (l : list ascii) : String.length (py_join l) = List.length l.
Proof. induction l; simpl; congruence. Qed.


Lemma py_list_join (l : list ascii) : py_list (py_join l) = l.
Proof. apply list_ascii_of_string_of_list_ascii. Qed.

Lemma get_py_list (s : string) (j : nat) : nth_error (py_list s) j = String.get j s.
Proof.
  revert j. induction s as [|c s IH]; intros [|j]; simpl; auto.
Qed.

Lemma length_set_nth {A : Type} (j : nat) (x : A) (l : list A) :
  List.length (set_nth j x l) = List.length l.
Proof.
  revert j. induction l as [|y l IH]; intros [|j]; simpl; auto.
Qed.

Lemma nth_set_nth_same {A : Type} (j : nat) (x : A) (l : list A) :
  (j < List.length l)%nat -> nth_error (set_nth j x l) j = Some x.
Proof.
  revert j. induction l as [|y l IH]; intros [|j] H; simpl in *; try lia; auto.
  apply IH. lia.
Qed.

Lemma nth_set_nth_other {A : Type} (j i : nat) (x : A) (l : list A) :
  i <> j -> nth_error (set_nth j x l) i = nth_error l i.
Proof.
  revert j i. induction l as [|y l IH]; intros [|j] [|i] H; simpl; auto.
  congruence.
Qed.

Lemma str_get_out (s : string) (i : Z) :
  out_of_range (String.length s) i -> str_get s i = Raise IndexError.
Proof. intros H. unfold str_get. now rewrite py_index_out. Qed.

Lemma py_index_valid (len : nat) (i : Z) :
  ~ out_of_range len i -> exists j, py_index len i = Ok j /\ (j < len)%nat.
Proof.
  intros H. unfold out_of_range in H.
  destruct (Z_lt_dec i 0).
  - exists (Z.to_nat (i + Z.of_nat len)). split; [apply py_index_negative|]; lia.
  - exists (Z.to_nat i). split; [apply py_index_in|]; lia.
Qed.

Lemma str_get_valid (s : string) (i : Z) :
  ~ out_of_range (String.length s) i -> exists c, str_get s i = Ok c.
Proof.
  intros H. destruct (py_index_valid _ _ H) as (j & E & Hj).
  unfold str_get. rewrite E. simpl.
  destruct (String.get j s) as [c|] eqn:G; [now exists c|].
  rewrite <- get_py_list in G. apply nth_error_None in G.
  rewrite length_py_list in G. lia.
Qed.

(* ================================================================== *)
(** ** Construction *)

Section Construction.

Context {AR : Arith}.

Lemma get_repeat (c : ascii) (m i : nat) :
  (i < m)%nat -> String.get i (string_of_list_ascii (repeat c m)) = Some c.
Proof.
  revert i. induction m as [|m IH]; intros i H; [lia|].
  destruct i as [|i]; simpl; auto. apply IH. lia.
Qed.

(** C8, as the code has it: construction never fails.  For [n >= 1] the
    register is the single entry mapping the all-zero string of length [n]
    to [1+0i]; for [n < 1] it is the single entry mapping the empty string
    to [1+0i]. *)
Theorem init_single_entry (n : Z) :
  exists zeros,
    __init__ n = {| num_qubits := n; amplitudes := [(zeros, cone)] |} /\
    String.length zeros = Z.to_nat n /\
    (forall i, (i < Z.to_nat n)%nat -> String.get i zeros = Some "0"%char) /\
    (n < 1 -> zeros = "").
Proof.
  exists (py_repeat "0"%char n). repeat split.
  - unfold py_repeat. change (string_of_list_ascii ?l) with (py_join l).
    rewrite length_py_join. apply repeat_length.
  - intros i H. now apply get_repeat.
  - intros H. unfold py_repeat. now replace (Z.to_nat n) with O by lia.
Qed.

End Construction.

(** C8 as stated fails: a qubit count of 0 builds a register. *)
Lemma init_zero_qubits_succeeds :
  __init__ (AR := F64.arith) 0 =
  @Build_QuantumComputer F64.arith 0 [("", (1%float, 0%float))].
Proof. reflexivity. Qed.

(* ================================================================== *)
(** ** Index errors *)

Section IndexErrors.

Context {AR : Arith}.

Lemma collect_target_raises (control_qubit target_qubit : Z) (n : nat)
    (ks : list string) (acc : list (string * string)) :
  Forall (fun k => String.length k = n) ks ->
  ~ out_of_range n control_qubit ->
  out_of_range n target_qubit ->
  Exists (fun k => str_get k control_qubit = Ok "1"%char) ks ->
  for_each (entangle_collect control_qubit target_qubit) ks acc = Raise IndexError.
Proof.
  intros Hlen Hc Ht Hex. revert acc.
  induction Hex as [k ks H1 | k ks Hex IH]; intros acc;
    inversion Hlen as [|? ? Hk Hks]; subst; simpl.
  - unfold entangle_collect at 1. rewrite H1. simpl.
    unfold list_get. rewrite length_py_list, py_index_out by assumption.
    reflexivity.
  - unfold entangle_collect at 1.
    destruct (str_get_valid k control_qubit) as [ch Hch]; [assumption|].
    rewrite Hch. simpl.
    destruct (Ascii.eqb ch "1") eqn:E.
    + unfold list_get. rewrite length_py_list, py_index_out by assumption.
      reflexivity.
    + simpl. now apply IH.
Qed.

(** An index that Python rejects raises [IndexError] where it is read: at
    the first key as the target of [apply_gate] and as the control of
    [entangle_qubits], and at the first key with the control bit set as the
    target of [entangle_qubits]. *)
Lemma out_of_range_raises (self : QuantumComputer) (gate_matrix : matrix)
    (n : nat) (i c : Z) :
  amplitudes self <> [] ->
  Forall (fun k => String.length k = n) (keys (amplitudes self)) ->
  out_of_range n i ->
  apply_gate self gate_matrix i = Raise IndexError /\
  entangle_qubits self i c = Raise IndexError /\
  (~ out_of_range n c ->
   Exists (fun k => str_get k c = Ok "1"%char) (keys (amplitudes self)) ->
   entangle_qubits self c i = Raise IndexError).
Proof.
  intros Hne Hlen Hi. destruct self as [nq d]. simpl in *.
  destruct d as [|[k a] d]; [congruence|].
  inversion Hlen as [|? ? Hk Hks]; subst.
  repeat split.
  - unfold apply_gate. simpl. now rewrite str_get_out.
  - unfold entangle_qubits. simpl. unfold entangle_collect at 1.
    now rewrite str_get_out.
  - intros Hc Hex. unfold entangle_qubits. simpl amplitudes.
    now rewrite (collect_target_raises _ _ (String.length k)).
Qed.

Lemma for_each_ext {A S : Type} (f g : S -> A -> result S) (xs : list A) (s : S) :
  (forall s' x, In x xs -> f s' x = g s' x) ->
  for_each f xs s = for_each g xs s.
Proof.
  revert s. induction xs as [|x xs IH]; intros s H; simpl; [reflexivity|].
  rewrite (H s x) by now left.
  destruct (g s x) as [s'|e]; simpl; [|reflexivity].
  apply IH. intros s'' y Hy. apply H. now right.
Qed.

(** A negative index in range reads the same position as the index plus the
    length. *)
Lemma py_index_wrap (len : nat) (i : Z) :
  - Z.of_nat len <= i < 0 -> py_index len i = py_index len (i + Z.of_nat len).
Proof.
  intros H. rewrite py_index_negative by assumption.
  rewrite py_index_in by lia. reflexivity.
Qed.

Lemma gate_item_wrap (gate_matrix : matrix) (n : nat) (i : Z) (next : dict)
    (item : string * complex) :
  String.length (fst item) = n -> - Z.of_nat n <= i < 0 ->
  gate_item gate_matrix i next item =
  gate_item gate_matrix (i + Z.of_nat n) next item.
Proof.
  intros Hlen Hi. destruct item as [k a]. simpl in Hlen. subst n.
  unfold gate_item, str_get. rewrite py_index_wrap by assumption.
  destruct (py_index (String.length k) (i + Z.of_nat (String.length k)))
    as [j|e]; cbn [bind]; [|reflexivity].
  destruct (String.get j k) as [ch|]; cbn [bind]; [|reflexivity].
  destruct (py_int ch) as [bit|e]; cbn [bind]; [|reflexivity].
  apply for_each_ext. intros next' row _.
  unfold gate_row, list_set. rewrite length_py_list.
  now rewrite py_index_wrap by assumption.
Qed.

Lemma entangle_collect_wrap (n : nat) (c t c' t' : Z)
    (acc : list (string * string)) (k : string) :
  String.length k = n ->
  py_index n c = py_index n c' -> py_index n t = py_index n t' ->
  entangle_collect c t acc k = entangle_collect c' t' acc k.
Proof.
  intros Hlen Hc Ht. subst n.
  unfold entangle_collect, str_get, list_get, list_set.
  now rewrite length_py_list, Hc, Ht.
Qed.

Lemma entangle_qubits_wrap (self : QuantumComputer) (n : nat) (c t c' t' : Z) :
  Forall (fun k => String.length k = n) (keys (amplitudes self)) ->
  py_index n c = py_index n c' -> py_index n t = py_index n t' ->
  entangle_qubits self c t = entangle_qubits self c' t'.
Proof.
  intros Hlen Hc Ht. unfold entangle_qubits.
  rewrite (for_each_ext (entangle_collect c t) (entangle_collect c' t')).
  - reflexivity.
  - intros acc k Hk. apply entangle_collect_wrap with (n := n); try assumption.
    rewrite Forall_forall in Hlen. now apply Hlen.
Qed.

End IndexErrors.

(* ================================================================== *)
(** ** Measurement *)

Lemma string_leb_refl (s : string) : String.leb s s = true.
Proof.
  destruct (String.leb_total s s); assumption.
Qed.

Lemma string_leb_trans (s1 s2 s3 : string) :
  String.leb s1 s2 = true -> String.leb s2 s3 = true -> String.leb s1 s3 = true.
Proof.
  unfold String.leb. revert s2 s3.
  induction s1 as [|c1 s1 IH]; intros [|c2 s2] [|c3 s3]; simpl;
    try reflexivity; try discriminate.
  unfold Ascii.compare.
  destruct (N.compare_spec (N_of_ascii c1) (N_of_ascii c2)) as [E12|L12|G12];
    destruct (N.compare_spec (N_of_ascii c2) (N_of_ascii c3)) as [E23|L23|G23];
    destruct (N.compare_spec (N_of_ascii c1) (N_of_ascii c3)) as [E13|L13|G13];
    try lia; try reflexivity; try discriminate.
  apply IH.
Qed.

Section Measurement.

Context {AR : Arith}.

Lemma in_insert_item (x y : string * complex) (l : dict) :
  In y (insert_item x l) <-> y = x \/ In y l.
Proof.
  induction l as [|z l IH]; simpl.
  - intuition congruence.
  - destruct (String.leb (fst x) (fst z)); simpl; rewrite ?IH; intuition congruence.
Qed.

Lemma in_sorted (y : string * complex) (d : dict) : In y (sorted d) <-> In y d.
Proof.
  induction d as [|x d IH]; simpl; [tauto|].
  rewrite in_insert_item, IH. intuition congruence.
Qed.

Lemma insert_item_sorted (x : string * complex) (l : dict) :
  StronglySorted key_le l -> StronglySorted key_le (insert_item x l).
Proof.
  induction 1 as [|z l Hl IH Hz]; simpl.
  - repeat constructor.
  - destruct (String.leb (fst x) (fst z)) eqn:E.
    + constructor; [now constructor|].
      constructor; [exact E|].
      eapply Forall_impl; [|exact Hz].
      intros w Hw. unfold key_le in *. eapply string_leb_trans; eassumption.
    + constructor; [exact IH|].
      apply Forall_forall. intros w Hw. apply in_insert_item in Hw.
      destruct Hw as [->|Hw].
      * unfold key_le. destruct (String.leb_total (fst x) (fst z)); congruence.
      * rewrite Forall_forall in Hz. now apply Hz.
Qed.

Lemma sorted_is_sorted (d : dict) : StronglySorted key_le (sorted d).
Proof.
  induction d as [|x d IH]; simpl; [constructor|now apply insert_item_sorted].
Qed.

Lemma last_in (l : dict) (def : string * complex) : l <> [] -> In (last l def) l.
Proof.
  intros H. destruct (exists_last H) as (l' & a & ->).
  rewrite last_last. apply in_or_app. right. now left.
Qed.

Lemma last_is_greatest (l : dict) (x def : string * complex) :
  StronglySorted key_le l -> In x l -> key_le x (last l def).
Proof.
  induction 1 as [|z l Hl IH Hz]; intros Hin; [contradiction|].
  destruct l as [|w l].
  - destruct Hin as [->|[]]. apply string_leb_refl.
  - change (last (z :: w :: l) def) with (last (w :: l) def).
    destruct Hin as [->|Hin]; [|now apply IH].
    rewrite Forall_forall in Hz. apply Hz. now apply last_in.
Qed.

(** The loop falls through exactly when the draw is never below the running
    sum. *)
Lemma collapse_walk_none (rand c : real) (l : dict) :
  (forall m, (1 <= m <= List.length l)%nat ->
     rltb rand (fold_left (fun acc item => radd acc (rsq (cabs (snd item))))
                          (firstn m l) c) = false) ->
  collapse_walk rand c l = None.
Proof.
  revert c. induction l as [|[k a] l IH]; intros c H; simpl; [reflexivity|].
  pose proof (H 1%nat) as H1. simpl in H1. rewrite H1 by lia.
  apply IH. intros m Hm. apply (H (S m)). simpl. lia.
Qed.

Lemma length_insert_item (x : string * complex) (l : dict) :
  List.length (insert_item x l) = S (List.length l).
Proof.
  induction l as [|z l IH]; simpl; [reflexivity|].
  destruct (String.leb (fst x) (fst z)); simpl; congruence.
Qed.

Lemma length_sorted (d : dict) : List.length (sorted d) = List.length d.
Proof.
  induction d as [|x d IH]; simpl; [reflexivity|].
  now rewrite length_insert_item, IH.
Qed.

(** C9: when the draw is never below the running sum of probabilities,
    taken in sorted order (in particular when the register is empty), the
    measurement leaves the object as it is and returns the greatest key in
    lexicographic order, or the empty string when there is no key. *)
Theorem collapse_fallback (self : QuantumComputer) (rand : real) :
  (forall m, (1 <= m <= List.length (amplitudes self))%nat ->
     rltb rand (cumulative_after (sorted (amplitudes self)) m) = false) ->
  exists outcome,
    collapse_to_measurement self rand = (outcome, self) /\
    (amplitudes self = [] -> outcome = "") /\
    (amplitudes self <> [] ->
       In outcome (keys (amplitudes self)) /\
       forall k, In k (keys (amplitudes self)) -> String.leb k outcome = true).
Proof.
  intros H. unfold collapse_to_measurement.
  rewrite collapse_walk_none by (rewrite length_sorted; exact H).
  destruct (amplitudes self) as [|x d] eqn:E.
  - exists "". simpl. repeat split; congruence.
  - set (l := sorted (x :: d)).
    assert (Hl : l <> []).
    { intros C. apply (f_equal (@List.length _)) in C.
      unfold l in C. rewrite length_sorted in C. discriminate. }
    exists (fst (last l ("", czero))). split; [|split].
    + destruct l; [congruence|reflexivity].
    + discriminate.
    + intros _. split.
      * apply in_map. apply in_sorted. now apply last_in.
      * intros k Hk. apply in_map_iff in Hk. destruct Hk as (y & <- & Hy).
        apply (last_is_greatest l); [apply sorted_is_sorted|].
        now apply in_sorted.
Qed.

(** When the loop returns from inside, the register collapses to the single
    entry of the outcome. *)
Lemma collapse_chosen (self : QuantumComputer) (rand : real) (s : string) :
  collapse_walk rand rzero (sorted (amplitudes self)) = Some s ->
  collapse_to_measurement self rand =
  (s, {| num_qubits := num_qubits self; amplitudes := [(s, cone)] |}).
Proof. intros H. unfold collapse_to_measurement. now rewrite H. Qed.

End Measurement.

(* ================================================================== *)
(** ** Gate application as a list of contributions *)

Section Contributions.

Context {AR : Arith}.

Lemma accumulate_app (next : dict) (a b : list (string * complex)) :
  accumulate next (a ++ b) = accumulate (accumulate next a) b.
Proof. apply fold_left_app. Qed.

Lemma gate_row_contribution (gate_matrix : matrix) (target_qubit : Z)
    (basis_state : string) (current_amp : complex) (bit row : nat) (next : dict) :
  gate_row gate_matrix target_qubit basis_state current_amp bit next row =
  do cs <- row_contribution gate_matrix target_qubit basis_state current_amp bit row;
  Ok (accumulate next cs).
Proof.
  unfold gate_row, row_contribution.
  destruct (mat_get gate_matrix row bit) as [m|e]; simpl; [|reflexivity].
  destruct (rltb (cabs (cmul m current_amp)) tiny); simpl; [reflexivity|].
  destruct (list_set (py_list basis_state) target_qubit (py_str row));
    reflexivity.
Qed.

Lemma gate_item_contributions (gate_matrix : matrix) (target_qubit : Z)
    (item : string * complex) (next : dict) :
  gate_item gate_matrix target_qubit next item =
  do cs <- item_contributions gate_matrix target_qubit item;
  Ok (accumulate next cs).
Proof.
  destruct item as [s a]. unfold gate_item, item_contributions. simpl fst. simpl snd.
  destruct (str_get s target_qubit) as [ch|e]; simpl; [|reflexivity].
  destruct (py_int ch) as [bit|e]; simpl; [|reflexivity].
  rewrite gate_row_contribution.
  destruct (row_contribution gate_matrix target_qubit s a bit 0) as [c0|e];
    simpl; [|reflexivity].
  rewrite gate_row_contribution.
  destruct (row_contribution gate_matrix target_qubit s a bit 1) as [c1|e];
    simpl; [|reflexivity].
  now rewrite accumulate_app.
Qed.

Lemma for_each_gate_item (gate_matrix : matrix) (target_qubit : Z)
    (d : dict) (next : dict) :
  for_each (gate_item gate_matrix target_qubit) d next =
  do cs <- contributions gate_matrix target_qubit d;
  Ok (accumulate next cs).
Proof.
  revert next. induction d as [|item d IH]; intros next; simpl; [reflexivity|].
  rewrite gate_item_contributions.
  destruct (item_contributions gate_matrix target_qubit item) as [c|e];
    simpl; [|reflexivity].
  rewrite IH.
  destruct (contributions gate_matrix target_qubit d) as [cs|e];
    simpl; [|reflexivity].
  now rewrite accumulate_app.
Qed.

(** [apply_gate] is the accumulation of its contributions. *)
Lemma apply_gate_accumulate (self : QuantumComputer) (gate_matrix : matrix)
    (target_qubit : Z) :
  apply_gate self gate_matrix target_qubit =
  do cs <- contributions gate_matrix target_qubit (amplitudes self);
  Ok {| num_qubits := num_qubits self; amplitudes := accumulate [] cs |}.
Proof.
  unfold apply_gate. rewrite for_each_gate_item.
  destruct (contributions gate_matrix target_qubit (amplitudes self));
    reflexivity.
Qed.

(** *** The dictionary under [get] and [set] *)

Lemma dict_get_set (d : dict) (k k' : string) (v def : complex) :
  dict_get (dict_set d k v) k' def =
  if String.eqb k k' then v else dict_get d k' def.
Proof.
  induction d as [|[k0 v0] d IH]; simpl.
  - reflexivity.
  - destruct (String.eqb k0 k) eqn:E0; simpl.
    + apply String.eqb_eq in E0. subst k0.
      destruct (String.eqb k k'); reflexivity.
    + destruct (String.eqb k0 k') eqn:E1.
      * apply String.eqb_eq in E1. subst k0.
        rewrite String.eqb_sym, E0. reflexivity.
      * apply IH.
Qed.


Lemma keys_dict_set (d : dict) (k : string) (v : complex) :
  keys (dict_set d k v) = if existsb (String.eqb k) (keys d)
                          then keys d else (keys d ++ [k])%list.
Proof.
  induction d as [|[k0 v0] d IH]; simpl; [reflexivity|].
  rewrite (String.eqb_sym k k0).
  destruct (String.eqb k0 k) eqn:E0; simpl; [reflexivity|].
  fold (keys (dict_set d k v)). fold (keys d). rewrite IH.
  destruct (existsb (String.eqb k) (keys d)); reflexivity.
Qed.

Lemma dict_get_default_or_in (d : dict) (k : string) (def : complex) :
  (dict_get d k def = def /\ ~ In k (keys d)) \/ In (k, dict_get d k def) d.
Proof.
  induction d as [|[k0 v0] d IH]; simpl.
  - left. tauto.
  - destruct (String.eqb k0 k) eqn:E0.
    + apply String.eqb_eq in E0. subst. right. now left.
    + apply String.eqb_neq in E0. destruct IH as [[IH1 IH2]|IH].
      * left. split; [assumption|]. intros [H|H]; [congruence|contradiction].
      * right. now right.
Qed.

Lemma existsb_eqb_in (k : string) (l : list string) :
  existsb (String.eqb k) l = true <-> In k l.
Proof.
  rewrite existsb_exists. split.
  - intros (x & Hx & E). apply String.eqb_eq in E. now subst.
  - intros H. exists k. split; [assumption|apply String.eqb_refl].
Qed.

Lemma in_keys_dict_set (d : dict) (k k' : string) (v : complex) :
  In k' (keys (dict_set d k v)) <-> k' = k \/ In k' (keys d).
Proof.
  rewrite keys_dict_set.
  destruct (existsb (String.eqb k) (keys d)) eqn:E.
  - apply existsb_eqb_in in E. intuition congruence.
  - rewrite in_app_iff. simpl. intuition congruence.
Qed.

Lemma distinct_nodup (l : list string) : distinct l = true <-> NoDup l.
Proof.
  induction l as [|x l IH]; simpl.
  - split; [constructor|reflexivity].
  - rewrite andb_true_iff, negb_true_iff, IH. split.
    + intros [H1 H2]. constructor; [|assumption].
      intros Hin. apply existsb_eqb_in in Hin. congruence.
    + intros H. inversion H as [|? ? Hn Hd]; subst. split; [|assumption].
      destruct (existsb (String.eqb x) l) eqn:E; [|reflexivity].
      apply existsb_eqb_in in E. contradiction.
Qed.

Lemma nodup_dict_set (d : dict) (k : string) (v : complex) :
  NoDup (keys d) -> NoDup (keys (dict_set d k v)).
Proof.
  intros H. rewrite keys_dict_set.
  destruct (existsb (String.eqb k) (keys d)) eqn:E; [assumption|].
  apply NoDup_app; [assumption|repeat constructor; intros []|].
  intros x Hx [<-|[]].
  apply existsb_eqb_in in Hx. congruence.
Qed.

End Contributions.

(* ================================================================== *)
(** ** Gate application on well-formed input *)

Section WellFormedGate.

Context {AR : Arith}.

Lemma is_bit_cases (c : ascii) :
  is_bit c = true -> c = "0"%char \/ c = "1"%char.
Proof.
  unfold is_bit. rewrite orb_true_iff, !Ascii.eqb_eq. tauto.
Qed.

Lemma bitstring_length (n : nat) (s : string) :
  bitstring n s = true -> String.length s = n.
Proof.
  unfold bitstring. rewrite andb_true_iff, Nat.eqb_eq. tauto.
Qed.

Lemma bitstring_get (n : nat) (s : string) (j : nat) :
  bitstring n s = true -> (j < n)%nat ->
  exists c, String.get j s = Some c /\ (c = "0"%char \/ c = "1"%char).
Proof.
  unfold bitstring. rewrite andb_true_iff, Nat.eqb_eq, forallb_forall.
  intros [Hlen Hbits] Hj.
  destruct (nth_error (py_list s) j) as [c|] eqn:E.
  - exists c. rewrite <- get_py_list. split; [assumption|].
    apply is_bit_cases, Hbits. eapply nth_error_In; eassumption.
  - apply nth_error_None in E. rewrite length_py_list in E. lia.
Qed.

Lemma mat_get_entry (m : matrix) (r c : nat) :
  two_by_two m = true -> (r < 2)%nat -> (c < 2)%nat ->
  mat_get m r c = Ok (entry m r c).
Proof.
  intros Hm Hr Hc.
  destruct m as [|[|a [|b [|]]] [|[|a' [|b' [|]]] [|]]]; try discriminate.
  destruct r as [|[|r]]; destruct c as [|[|c]]; try lia; reflexivity.
Qed.

Lemma item_contributions_ok (m : matrix) (n : nat) (t : Z) (item : string * complex) :
  two_by_two m = true -> bitstring n (fst item) = true -> 0 <= t < Z.of_nat n ->
  item_contributions m t item = Ok (item_kept m (Z.to_nat t) item).
Proof.
  intros Hm Hs Ht. destruct item as [s a]. simpl in Hs.
  pose proof (bitstring_length _ _ Hs) as Hlen.
  destruct (bitstring_get _ _ (Z.to_nat t) Hs) as (c & Hget & Hc); [lia|].
  unfold item_contributions, item_kept, kept. simpl fst. simpl snd.
  unfold str_get. rewrite py_index_in by lia. simpl. rewrite Hget. simpl.
  assert (Hint : py_int c = Ok (bit_at (Z.to_nat t) s) /\
                 (bit_at (Z.to_nat t) s < 2)%nat).
  { unfold bit_at. rewrite Hget. destruct Hc as [-> | ->]; simpl; split;
      (reflexivity || lia). }
  destruct Hint as [Hint Hlt]. rewrite Hint. simpl.
  unfold row_contribution, list_set.
  rewrite !mat_get_entry by (assumption || lia). simpl.
  rewrite length_py_list, py_index_in by lia. simpl.
  destruct (rltb _ tiny); destruct (rltb _ tiny); reflexivity.
Qed.

Lemma contributions_ok (m : matrix) (n : nat) (t : Z) (d : dict) :
  two_by_two m = true -> forallb (bitstring n) (keys d) = true ->
  0 <= t < Z.of_nat n ->
  contributions m t d = Ok (flat_map (item_kept m (Z.to_nat t)) d).
Proof.
  intros Hm Hd Ht. induction d as [|item d IH]; simpl; [reflexivity|].
  simpl in Hd. apply andb_true_iff in Hd. destruct Hd as [H1 H2].
  rewrite (item_contributions_ok _ _ _ _ Hm H1 Ht). simpl.
  rewrite IH by assumption. reflexivity.
Qed.

(** On a register and a 2x2 matrix, [apply_gate] returns. *)
Lemma apply_gate_ok (self : QuantumComputer) (m : matrix) (n : nat) (t : Z) :
  two_by_two m = true -> forallb (bitstring n) (keys (amplitudes self)) = true ->
  0 <= t < Z.of_nat n ->
  apply_gate self m t =
  Ok {| num_qubits := num_qubits self;
        amplitudes := accumulate [] (flat_map (item_kept m (Z.to_nat t))
                                              (amplitudes self)) |}.
Proof.
  intros Hm Hd Ht. rewrite apply_gate_accumulate.
  now rewrite (contributions_ok _ _ _ _ Hm Hd Ht).
Qed.

Lemma in_keys_accumulate (cs : list (string * complex)) (next : dict) (k : string) :
  In k (keys (accumulate next cs)) -> In k (keys next) \/ In k (map fst cs).
Proof.
  revert next. induction cs as [|[k0 c0] cs IH]; intros next H; simpl in *.
  - now left.
  - apply IH in H. destruct H as [H|H]; [|tauto].
    apply in_keys_dict_set in H. destruct H as [->|H]; auto.
Qed.

Lemma in_item_kept (m : matrix) (j : nat) (item kc : string * complex) :
  In kc (item_kept m j item) ->
  exists r, (r < 2)%nat /\ fst kc = put_at j r (fst item) /\
            snd kc = cmul (entry m r (bit_at j (fst item))) (snd item) /\
            rltb (cabs (snd kc)) tiny = false.
Proof.
  unfold item_kept, kept. intros H. apply in_app_or in H.
  destruct H as [H|H]; [exists 0%nat|exists 1%nat];
    (destruct (rltb (cabs (cmul _ (snd item))) tiny) eqn:E; [contradiction|]);
    destruct H as [<-|[]]; simpl; repeat split; auto.
Qed.

Lemma length_put_at (j r : nat) (s : string) :
  String.length (put_at j r s) = String.length s.
Proof.
  unfold put_at. now rewrite length_py_join, length_set_nth, length_py_list.
Qed.

Lemma get_put_at_other (j r i : nat) (s : string) :
  i <> j -> String.get i (put_at j r s) = String.get i s.
Proof.
  intros H. unfold put_at.
  rewrite <- !get_py_list, py_list_join. now apply nth_set_nth_other.
Qed.

Lemma get_put_at_same (j r : nat) (s : string) :
  (j < String.length s)%nat -> String.get j (put_at j r s) = Some (py_str r).
Proof.
  intros H. unfold put_at.
  rewrite <- !get_py_list, py_list_join. apply nth_set_nth_same.
  now rewrite length_py_list.
Qed.

(** C10: on a register of [n] qubits, a 2x2 matrix and a target below [n],
    [apply_gate] returns, keeps the qubit count, and every key of the result
    comes from a key of the input by changing at most the character at the
    target position: same length, same characters elsewhere. *)
Theorem apply_gate_keys (self : QuantumComputer) (m : matrix) (n : nat) (t : Z) :
  two_by_two m = true ->
  forallb (bitstring n) (keys (amplitudes self)) = true ->
  0 <= t < Z.of_nat n ->
  exists out,
    apply_gate self m t = Ok out /\
    num_qubits out = num_qubits self /\
    forall k, In k (keys (amplitudes out)) ->
      exists s, In s (keys (amplitudes self)) /\
                String.length k = String.length s /\
                String.length k = n /\
                forall i, i <> Z.to_nat t -> String.get i k = String.get i s.
Proof.
  intros Hm Hd Ht. eexists. split; [apply (apply_gate_ok _ _ _ _ Hm Hd Ht)|].
  split; [reflexivity|]. simpl. intros k Hk.
  apply in_keys_accumulate in Hk. destruct Hk as [[]|Hk].
  apply in_map_iff in Hk. destruct Hk as (kc & <- & Hkc).
  apply in_flat_map in Hkc. destruct Hkc as (item & Hitem & Hkc).
  apply in_item_kept in Hkc. destruct Hkc as (r & _ & Hk & _).
  exists (fst item). rewrite Hk, length_put_at.
  assert (Hin : In (fst item) (keys (amplitudes self))) by now apply in_map.
  repeat split; auto.
  - rewrite forallb_forall in Hd. now apply bitstring_length, Hd.
  - intros i Hi. now apply get_put_at_other.
Qed.

End WellFormedGate.

(* ================================================================== *)
(** ** The entangling step on well-formed input *)

Section Entangle.

Context {AR : Arith}.

Lemma flip_at_get (j : nat) (s : string) (c : ascii) :
  String.get j s = Some c ->
  flip_at j s = py_join (set_nth j (flip_char c) (py_list s)).
Proof.
  intros H. unfold flip_at. rewrite get_py_list, H. reflexivity.
Qed.

Lemma length_flip_at (j : nat) (s : string) :
  String.length (flip_at j s) = String.length s.
Proof.
  unfold flip_at. now rewrite length_py_join, length_set_nth, length_py_list.
Qed.

Lemma get_flip_at_other (j i : nat) (s : string) :
  i <> j -> String.get i (flip_at j s) = String.get i s.
Proof.
  intros H. unfold flip_at.
  rewrite <- !get_py_list, py_list_join. now apply nth_set_nth_other.
Qed.

Lemma get_flip_at_same (j : nat) (s : string) (c : ascii) :
  String.get j s = Some c -> String.get j (flip_at j s) = Some (flip_char c).
Proof.
  intros H. rewrite (flip_at_get _ _ _ H).
  rewrite <- get_py_list, py_list_join. apply nth_set_nth_same.
  rewrite <- get_py_list in H.
  apply nth_error_Some. congruence.
Qed.

Lemma get_some (j : nat) (s : string) :
  (j < String.length s)%nat -> exists c, String.get j s = Some c.
Proof.
  intros H. destruct (String.get j s) as [c|] eqn:E; [now exists c|].
  rewrite <- get_py_list in E. apply nth_error_None in E.
  rewrite length_py_list in E. lia.
Qed.

Lemma flip_char_neq (c : ascii) : flip_char c <> c.
Proof.
  unfold flip_char. destruct (Ascii.eqb c "0") eqn:E.
  - apply Ascii.eqb_eq in E. subst. discriminate.
  - apply Ascii.eqb_neq in E. congruence.
Qed.

Lemma flip_at_neq (j : nat) (s : string) :
  (j < String.length s)%nat -> flip_at j s <> s.
Proof.
  intros H E. destruct (get_some _ _ H) as [c Hc].
  pose proof (get_flip_at_same _ _ _ Hc) as G. rewrite E, Hc in G.
  injection G as G. symmetry in G. now apply flip_char_neq in G.
Qed.

Lemma has_control_flip_at (cj tj : nat) (s : string) :
  cj <> tj -> has_control cj (flip_at tj s) = has_control cj s.
Proof.
  intros H. unfold has_control. now rewrite get_flip_at_other.
Qed.

Lemma entangle_collect_ok (c t : Z) (n : nat) (acc : list (string * string))
    (s : string) :
  String.length s = n -> 0 <= c < Z.of_nat n -> 0 <= t < Z.of_nat n ->
  entangle_collect c t acc s = Ok (collect_step (Z.to_nat c) (Z.to_nat t) acc s).
Proof.
  intros Hlen Hc Ht. unfold entangle_collect, collect_step, has_control.
  unfold str_get. rewrite py_index_in by lia. simpl.
  destruct (get_some (Z.to_nat c) s) as [ch Hch]; [lia|]. rewrite Hch. simpl.
  destruct (Ascii.eqb ch "1"); [|reflexivity].
  destruct (get_some (Z.to_nat t) s) as [old Hold]; [lia|].
  unfold list_get, list_set. rewrite length_py_list, py_index_in by lia. simpl.
  rewrite get_py_list, Hold. simpl.
  rewrite (flip_at_get _ _ _ Hold). unfold flip_char, py_join.
  destruct (pair_in _ acc); reflexivity.
Qed.

Lemma for_each_collect_ok (c t : Z) (n : nat) (ks : list string)
    (acc : list (string * string)) :
  Forall (fun k => String.length k = n) ks ->
  0 <= c < Z.of_nat n -> 0 <= t < Z.of_nat n ->
  for_each (entangle_collect c t) ks acc =
  Ok (fold_left (collect_step (Z.to_nat c) (Z.to_nat t)) ks acc).
Proof.
  intros Hks Hc Ht. revert acc.
  induction Hks as [|k ks Hk Hks IH]; intros acc; simpl; [reflexivity|].
  rewrite (entangle_collect_ok _ _ _ _ _ Hk Hc Ht). simpl. apply IH.
Qed.

(** On keys of one length and indices below it, [entangle_qubits] returns. *)
Lemma entangle_qubits_ok (self : QuantumComputer) (c t : Z) (n : nat) :
  Forall (fun k => String.length k = n) (keys (amplitudes self)) ->
  0 <= c < Z.of_nat n -> 0 <= t < Z.of_nat n ->
  entangle_qubits self c t =
  Ok {| num_qubits := num_qubits self;
        amplitudes :=
          fold_left entangle_swap
            (fold_left (collect_step (Z.to_nat c) (Z.to_nat t))
                       (keys (amplitudes self)) [])
            (amplitudes self) |}.
Proof.
  intros Hks Hc Ht. unfold entangle_qubits.
  now rewrite (for_each_collect_ok _ _ _ _ _ Hks Hc Ht).
Qed.

(** A state that is in no pair keeps its amplitude. *)
Lemma swaps_get_out (ps : list (string * string)) (d : dict) (k : string)
    (def : complex) :
  ~ In k (members ps) ->
  dict_get (fold_left entangle_swap ps d) k def = dict_get d k def.
Proof.
  revert d. induction ps as [|[a b] ps IH]; intros d H; simpl; [reflexivity|].
  simpl in H. rewrite IH by tauto.
  rewrite !dict_get_set.
  destruct (String.eqb b k) eqn:Eb; [apply String.eqb_eq in Eb; tauto|].
  destruct (String.eqb a k) eqn:Ea; [apply String.eqb_eq in Ea; tauto|].
  reflexivity.
Qed.

Lemma in_members_app (ps qs : list (string * string)) (k : string) :
  In k (members (ps ++ qs)) <-> In k (members ps) \/ In k (members qs).
Proof. unfold members. rewrite flat_map_app. apply in_app_iff. Qed.

(** Every collected pair is a key with the control bit set and its partner. *)
Lemma collect_pairs (cj tj : nat) (ks : list string) (acc : list (string * string))
    (p : string * string) :
  In p (fold_left (collect_step cj tj) ks acc) ->
  In p acc \/
  (In (fst p) ks /\ has_control cj (fst p) = true /\ snd p = flip_at tj (fst p)).
Proof.
  revert acc. induction ks as [|s ks IH]; intros acc H; simpl in *; [now left|].
  apply IH in H. destruct H as [H|H]; [|tauto].
  unfold collect_step in H.
  destruct (has_control cj s) eqn:Ec; [|now left].
  destruct (pair_in (flip_at tj s, s) acc); [now left|].
  apply in_app_or in H. destruct H as [H|[<-|[]]]; [now left|].
  right. simpl. auto.
Qed.

Lemma collect_members_control (cj tj : nat) (ks : list string) (k : string) :
  cj <> tj ->
  In k (members (fold_left (collect_step cj tj) ks [])) ->
  has_control cj k = true.
Proof.
  intros Hne H. unfold members in H. apply in_flat_map in H.
  destruct H as ([a b] & Hp & Hk).
  apply collect_pairs in Hp. destruct Hp as [[]|(_ & Hc & Hb)].
  simpl in *. destruct Hk as [<-|[<-|[]]]; [assumption|].
  rewrite Hb. now rewrite has_control_flip_at.
Qed.

(** C4: on a register with keys of length [n] and distinct indices below
    [n], [entangle_qubits] returns, and every basis state whose control bit
    is 0 has the amplitude it had. *)
Theorem entangle_fixes_control_zero (self : QuantumComputer) (c t : Z) (n : nat) :
  Forall (fun k => String.length k = n) (keys (amplitudes self)) ->
  0 <= c < Z.of_nat n -> 0 <= t < Z.of_nat n -> c <> t ->
  exists out,
    entangle_qubits self c t = Ok out /\
    forall k, String.get (Z.to_nat c) k = Some "0"%char ->
              _get_amplitude out k = _get_amplitude self k.
Proof.
  intros Hks Hc Ht Hne. eexists.
  split; [apply (entangle_qubits_ok _ _ _ _ Hks Hc Ht)|].
  intros k Hk. unfold _get_amplitude. simpl.
  apply swaps_get_out. intros Hin.
  apply collect_members_control in Hin; [|lia].
  unfold has_control in Hin. rewrite Hk in Hin. discriminate.
Qed.

(** C7, as the code has it.  Neither operation checks an index; Python's
    indexing decides.  On keys of length [n]: an index [i >= n] or [i < -n]
    raises [IndexError] on a register with an entry, as the target of
    [apply_gate], as the control of [entangle_qubits], and as its target
    when some key has the control bit set; an index [-n <= i < 0] is
    accepted and stands for [i + n]; equal control and target indices are
    accepted. *)
Theorem indices_as_python_reads_them (self : QuantumComputer)
    (gate_matrix : matrix) (n : nat) (i c : Z) :
  Forall (fun k => String.length k = n) (keys (amplitudes self)) ->
  (amplitudes self <> [] -> out_of_range n i ->
     apply_gate self gate_matrix i = Raise IndexError /\
     entangle_qubits self i c = Raise IndexError /\
     (~ out_of_range n c ->
      Exists (fun k => str_get k c = Ok "1"%char) (keys (amplitudes self)) ->
      entangle_qubits self c i = Raise IndexError)) /\
  (- Z.of_nat n <= i < 0 ->
     apply_gate self gate_matrix i = apply_gate self gate_matrix (i + Z.of_nat n) /\
     entangle_qubits self i c = entangle_qubits self (i + Z.of_nat n) c /\
     entangle_qubits self c i = entangle_qubits self c (i + Z.of_nat n)) /\
  (0 <= c < Z.of_nat n -> exists out, entangle_qubits self c c = Ok out).
Proof.
  intros Hlen. split; [|split].
  - intros Hne Hi. now apply out_of_range_raises.
  - intros Hi. split; [|split].
    + unfold apply_gate. rewrite (for_each_ext (gate_item gate_matrix i)
                                     (gate_item gate_matrix (i + Z.of_nat n))).
      * reflexivity.
      * intros next item Hin. apply gate_item_wrap; [|assumption].
        rewrite Forall_forall in Hlen. apply Hlen. now apply in_map.
    + apply entangle_qubits_wrap with (n := n); auto using py_index_wrap.
    + apply entangle_qubits_wrap with (n := n); auto using py_index_wrap.
  - intros Hc. eexists. apply (entangle_qubits_ok self c c n Hlen Hc Hc).
Qed.

End Entangle.

(* ================================================================== *)
(** ** The entangling step is its own inverse *)

Section EntangleTwice.

Context {AR : Arith}.

Variables (n cj tj : nat).
Hypothesis tj_in : (tj < n)%nat.
Hypothesis cj_tj : cj <> tj.

Lemma flip_char_bit (c : ascii) : is_bit (flip_char c) = true.
Proof. unfold flip_char. destruct (Ascii.eqb c "0"); reflexivity. Qed.

Lemma flip_char_involutive (c : ascii) :
  c = "0"%char \/ c = "1"%char -> flip_char (flip_char c) = c.
Proof. intros [-> | ->]; reflexivity. Qed.

Lemma forallb_set_nth {A : Type} (p : A -> bool) (j : nat) (x : A) (l : list A) :
  forallb p l = true -> p x = true -> forallb p (set_nth j x l) = true.
Proof.
  revert j. induction l as [|y l IH]; intros [|j] H Hx; simpl in *; auto;
    apply andb_true_iff in H; destruct H as [H1 H2];
    apply andb_true_iff; auto.
Qed.

Lemma bitstring_flip_at (s : string) :
  bitstring n s = true -> bitstring n (flip_at tj s) = true.
Proof.
  unfold bitstring. rewrite !andb_true_iff, !Nat.eqb_eq. intros [Hlen Hbits].
  split; [now rewrite length_flip_at|].
  unfold flip_at. rewrite py_list_join.
  apply forallb_set_nth; [assumption|].
  destruct (nth_error (py_list s) tj); [apply flip_char_bit|reflexivity].
Qed.

Lemma flip_at_involutive (s : string) :
  bitstring n s = true -> flip_at tj (flip_at tj s) = s.
Proof.
  intros Hs. apply String.get_correct. intros i.
  destruct (Nat.eq_dec i tj) as [->|Hi].
  - destruct (bitstring_get _ _ tj Hs tj_in) as (c & Hc & Hbit).
    rewrite (get_flip_at_same _ _ _ (get_flip_at_same _ _ _ Hc)).
    now rewrite flip_char_involutive.
  - now rewrite !get_flip_at_other.
Qed.

Lemma flip_at_differs (s : string) : bitstring n s = true -> flip_at tj s <> s.
Proof.
  intros Hs. apply flip_at_neq. now rewrite (bitstring_length _ _ Hs).
Qed.

Lemma pair_in_iff (p : string * string) (l : list (string * string)) :
  pair_in p l = true <-> In p l.
Proof.
  unfold pair_in, pair_eqb. rewrite existsb_exists. split.
  - intros ([a b] & Hin & E). destruct p as [x y]. simpl in E.
    apply andb_true_iff in E. destruct E as [E1 E2].
    apply String.eqb_eq in E1, E2. now subst.
  - intros H. exists p. split; [assumption|].
    now rewrite !String.eqb_refl.
Qed.

Lemma in_members (ps : list (string * string)) (k : string) :
  In k (members ps) <-> exists a b, In (a, b) ps /\ (k = a \/ k = b).
Proof.
  unfold members. rewrite in_flat_map. split.
  - intros ([a b] & Hp & Hk). exists a, b. simpl in Hk. intuition.
  - intros (a & b & Hp & Hk). exists (a, b). simpl. intuition.
Qed.

Lemma collected_step (visited : list string) (acc : list (string * string))
    (s : string) :
  NoDup (visited ++ [s]) ->
  Forall (fun k => bitstring n k = true) (visited ++ [s]) ->
  collected cj tj visited acc ->
  collected cj tj (visited ++ [s]) (collect_step cj tj acc s).
Proof.
  intros Hnd Hbits [Hp Hn Hc].
  assert (Hs : bitstring n s = true).
  { rewrite Forall_forall in Hbits. apply Hbits, in_or_app. right. now left. }
  assert (Hfresh : ~ In s visited).
  { intros Hin. apply NoDup_remove_2 in Hnd. apply Hnd, in_or_app. tauto. }
  assert (Hvis : forall a, In a visited -> bitstring n a = true).
  { intros a Ha. rewrite Forall_forall in Hbits. apply Hbits, in_or_app. tauto. }
  unfold collect_step. destruct (has_control cj s) eqn:Ec.
  - destruct (pair_in (flip_at tj s, s) acc) eqn:Ep.
    + apply pair_in_iff in Ep. constructor; [|assumption|].
      * intros a b Hab. destruct (Hp a b Hab) as (H1 & H2 & H3).
        repeat split; auto. apply in_or_app. tauto.
      * intros s' Hs' Hc'. apply in_app_or in Hs'.
        destruct Hs' as [Hs'|[<-|[]]]; [now apply Hc|].
        apply in_members. exists (flip_at tj s), s. tauto.
    + assert (Hnot : ~ In (flip_at tj s, s) acc).
      { intros Hin. apply pair_in_iff in Hin. congruence. }
      constructor.
      * intros a b Hab. apply in_app_or in Hab.
        destruct Hab as [Hab|[[= <- <-]|[]]].
        -- destruct (Hp a b Hab) as (H1 & H2 & H3).
           repeat split; auto. apply in_or_app. tauto.
        -- repeat split; auto. apply in_or_app. right. now left.
      * unfold members. rewrite flat_map_app. cbn [flat_map fst snd app].
        apply NoDup_app; [exact Hn| |].
        -- constructor; [|repeat constructor; intros []].
           intros [E|[]]. now apply (flip_at_differs s).
        -- intros x Hx Hx'. apply in_members in Hx.
           destruct Hx as (a & b & Hab & Hk).
           destruct (Hp a b Hab) as (Ha & _ & Hb).
           pose proof (flip_at_involutive a (Hvis a Ha)) as Hinv.
           pose proof (flip_at_involutive s Hs) as Hinvs.
           destruct Hx' as [E1 | [E1 | []]]; destruct Hk as [E2 | E2].
           ++ apply Hfresh. rewrite E1, E2. exact Ha.
           ++ apply Hnot. replace (flip_at tj s, s) with (a, b); [exact Hab|].
              f_equal; [|congruence].
              rewrite E1, E2, Hb. now rewrite Hinv.
           ++ apply Hnot. replace (flip_at tj s, s) with (a, b); [exact Hab|].
              f_equal; [congruence|].
              rewrite Hb, <- E2, <- E1. exact Hinvs.
           ++ apply Hfresh. replace s with a; [exact Ha|].
              rewrite <- Hinv, <- Hinvs. f_equal. congruence.
      * intros s' Hs' Hc'. apply in_members_app. apply in_app_or in Hs'.
        destruct Hs' as [Hs'|[<-|[]]]; [left; now apply Hc|].
        right. simpl. now left.
  - constructor; [|assumption|].
    + intros a b Hab. destruct (Hp a b Hab) as (H1 & H2 & H3).
      repeat split; auto. apply in_or_app. tauto.
    + intros s' Hs' Hc'. apply in_app_or in Hs'.
      destruct Hs' as [Hs'|[<-|[]]]; [now apply Hc|congruence].
Qed.

Lemma collected_fold (ks visited : list string) (acc : list (string * string)) :
  NoDup (visited ++ ks) ->
  Forall (fun k => bitstring n k = true) (visited ++ ks) ->
  collected cj tj visited acc ->
  collected cj tj (visited ++ ks) (fold_left (collect_step cj tj) ks acc).
Proof.
  revert visited acc. induction ks as [|s ks IH]; intros visited acc Hnd Hbits Hc.
  - now rewrite app_nil_r.
  - simpl. replace (visited ++ s :: ks)%list with ((visited ++ [s]) ++ ks)%list
      in * by (now rewrite <- app_assoc).
    apply IH; try assumption.
    apply collected_step; [| |assumption].
    + eapply NoDup_app_remove_r. eassumption.
    + apply Forall_app in Hbits. tauto.
Qed.

Lemma collected_keys (ks : list string) :
  NoDup ks -> Forall (fun k => bitstring n k = true) ks ->
  collected cj tj ks (fold_left (collect_step cj tj) ks []).
Proof.
  intros Hnd Hbits. apply (collected_fold ks [] []); try assumption.
  constructor; [intros a b []|constructor|intros s []].
Qed.

Lemma collected_members (ks : list string) (ps : list (string * string)) (k : string) :
  Forall (fun s => bitstring n s = true) ks ->
  collected cj tj ks ps ->
  In k (members ps) ->
  bitstring n k = true /\ has_control cj k = true /\
  In (flip_at tj k) (members ps) /\ flip_at tj (flip_at tj k) = k.
Proof.
  intros Hbits [Hp _ _] Hk. apply in_members in Hk.
  destruct Hk as (a & b & Hab & Hk).
  destruct (Hp a b Hab) as (Ha & Hc & Hb).
  rewrite Forall_forall in Hbits. pose proof (Hbits a Ha) as Hbit.
  pose proof (flip_at_involutive a Hbit) as Hinv.
  destruct Hk as [-> | ->].
  - repeat split; auto. apply in_members. exists a, b. rewrite <- Hb. tauto.
  - rewrite Hb, Hinv. repeat split.
    + now apply bitstring_flip_at.
    + now rewrite has_control_flip_at.
    + apply in_members. exists a, b. tauto.
Qed.

Lemma collected_partner (ks : list string) (ps : list (string * string))
    (a b : string) :
  Forall (fun s => bitstring n s = true) ks ->
  collected cj tj ks ps -> In (a, b) ps ->
  b = flip_at tj a /\ flip_at tj b = a.
Proof.
  intros Hbits [Hp _ _] Hab. destruct (Hp a b Hab) as (Ha & _ & Hb).
  split; [assumption|]. rewrite Hb. apply flip_at_involutive.
  rewrite Forall_forall in Hbits. now apply Hbits.
Qed.

(** A state that is in a pair receives the amplitude of its partner. *)
Lemma swaps_get_in (ps : list (string * string)) (d : dict) (k : string) :
  (forall a b, In (a, b) ps -> b = flip_at tj a /\ flip_at tj b = a) ->
  NoDup (members ps) ->
  In k (members ps) ->
  dict_get (fold_left entangle_swap ps d) k czero =
  dict_get d (flip_at tj k) czero.
Proof.
  revert d. induction ps as [|[a b] ps IH]; intros d Hp Hn Hk; [contradiction|].
  change (NoDup (a :: b :: members ps)) in Hn.
  change (In k (a :: b :: members ps)) in Hk.
  inversion Hn as [|? ? Ha Hn']; subst.
  inversion Hn' as [|? ? Hb Hn'']; subst.
  destruct (Hp a b (or_introl eq_refl)) as [Eb Ea].
  assert (Hp' : forall x y, In (x, y) ps ->
                  y = flip_at tj x /\ flip_at tj y = x).
  { intros x y Hxy. apply Hp. now right. }
  simpl fold_left.
  destruct (in_dec string_dec k (members ps)) as [Hin|Hout].
  - rewrite IH by assumption.
    assert (Hf : In (flip_at tj k) (members ps)).
    { apply in_members in Hin. destruct Hin as (x & y & Hxy & Hk').
      destruct (Hp' x y Hxy) as [Ey Ex]. apply in_members. exists x, y.
      split; [assumption|]. destruct Hk' as [-> | ->]; auto. }
    unfold entangle_swap. rewrite !dict_get_set.
    destruct (String.eqb b (flip_at tj k)) eqn:E1.
    { apply String.eqb_eq in E1. exfalso. apply Hb. now rewrite E1. }
    destruct (String.eqb a (flip_at tj k)) eqn:E2.
    { apply String.eqb_eq in E2. exfalso. apply Ha. right. now rewrite E2. }
    reflexivity.
  - rewrite swaps_get_out by assumption.
    unfold entangle_swap. rewrite !dict_get_set.
    destruct Hk as [Hk | [Hk | Hk]]; [| |contradiction].
    + rewrite <- Hk. destruct (String.eqb b a) eqn:E1.
      { apply String.eqb_eq in E1. exfalso. apply Ha. left. now rewrite E1. }
      rewrite String.eqb_refl. now rewrite <- Eb.
    + rewrite <- Hk. rewrite String.eqb_refl. now rewrite Ea.
Qed.

Lemma in_keys_swaps (ps : list (string * string)) (d : dict) (k : string) :
  In k (keys (fold_left entangle_swap ps d)) <->
  In k (keys d) \/ In k (members ps).
Proof.
  revert d. induction ps as [|[a b] ps IH]; intros d; simpl; [tauto|].
  rewrite IH. unfold entangle_swap. rewrite !in_keys_dict_set.
  intuition congruence.
Qed.

Lemma nodup_keys_swaps (ps : list (string * string)) (d : dict) :
  NoDup (keys d) -> NoDup (keys (fold_left entangle_swap ps d)).
Proof.
  revert d. induction ps as [|[a b] ps IH]; intros d H; simpl; [assumption|].
  apply IH. unfold entangle_swap. now apply nodup_dict_set, nodup_dict_set.
Qed.

(** Two rounds of collecting and swapping restore every amplitude. *)
Lemma swap_twice (d : dict) (k : string) :
  NoDup (keys d) -> Forall (fun s => bitstring n s = true) (keys d) ->
  let step := collect_step cj tj in
  let d1 := fold_left entangle_swap (fold_left step (keys d) []) d in
  let d2 := fold_left entangle_swap (fold_left step (keys d1) []) d1 in
  dict_get d2 k czero = dict_get d k czero.
Proof.
  intros Hnd Hbits step d1 d2.
  set (ps1 := fold_left step (keys d) []) in *.
  set (ps2 := fold_left step (keys d1) []) in *.
  assert (C1 : collected cj tj (keys d) ps1) by now apply collected_keys.
  assert (Hnd1 : NoDup (keys d1)) by now apply nodup_keys_swaps.
  assert (Hbits1 : Forall (fun s => bitstring n s = true) (keys d1)).
  { apply Forall_forall. intros s Hs. apply in_keys_swaps in Hs.
    destruct Hs as [Hs|Hs].
    - rewrite Forall_forall in Hbits. now apply Hbits.
    - now apply (collected_members _ _ _ Hbits C1). }
  assert (C2 : collected cj tj (keys d1) ps2) by now apply collected_keys.
  assert (Hsame : forall s, In s (members ps2) <-> In s (members ps1)).
  { intros s. split; intros Hs.
    - assert (Hback : forall a, In a (keys d1) -> has_control cj a = true ->
                                In a (members ps1)).
      { intros a Ha Hc. apply in_keys_swaps in Ha. destruct Ha as [Ha|Ha];
          [now apply (col_pairs _ _ _ _ C1) || now apply (col_cover _ _ _ _ C1)|assumption]. }
      apply in_members in Hs. destruct Hs as (a & b & Hab & Hs).
      destruct (col_pairs _ _ _ _ C2 a b Hab) as (Ha & Hc & Hb).
      pose proof (Hback a Ha Hc) as Hin.
      destruct Hs as [-> | ->]; [assumption|].
      rewrite Hb. now apply (collected_members _ _ _ Hbits C1).
    - apply (col_cover _ _ _ _ C2).
      + apply in_keys_swaps. now right.
      + now apply (collected_members _ _ _ Hbits C1). }
  unfold d2. fold ps2.
  destruct (in_dec string_dec k (members ps2)) as [Hin|Hout].
  - rewrite swaps_get_in; try assumption.
    + apply Hsame in Hin.
      destruct (collected_members _ _ _ Hbits C1 Hin) as (_ & _ & Hf & Hinv).
      unfold d1. fold ps1. rewrite swaps_get_in; try assumption.
      * now rewrite Hinv.
      * intros a b. now apply collected_partner with (ks := keys d).
      * apply (col_nodup _ _ _ _ C1).
    + intros a b. now apply collected_partner with (ks := keys d1).
    + apply (col_nodup _ _ _ _ C2).
  - rewrite swaps_get_out by assumption.
    unfold d1. fold ps1. apply swaps_get_out. now rewrite <- Hsame.
Qed.

End EntangleTwice.

Section EntangleInverse.

Context {AR : Arith}.

Lemma register_spec (n : nat) (d : dict) :
  register n d = true ->
  NoDup (keys d) /\ Forall (fun s => bitstring n s = true) (keys d).
Proof.
  unfold register. rewrite andb_true_iff, distinct_nodup, forallb_forall.
  intros [H1 H2]. split; [assumption|now apply Forall_forall].
Qed.

(** C3: on a register of [n] qubits and distinct indices below [n], two
    successive calls of [entangle_qubits] with the same indices both return
    and give every basis state the amplitude it had at the start, a missing
    key counting as [0+0i]. *)
Theorem entangle_twice (self : QuantumComputer) (c t : Z) (n : nat) :
  register n (amplitudes self) = true ->
  0 <= c < Z.of_nat n -> 0 <= t < Z.of_nat n -> c <> t ->
  exists once twice,
    entangle_qubits self c t = Ok once /\
    entangle_qubits once c t = Ok twice /\
    num_qubits twice = num_qubits self /\
    forall k, _get_amplitude twice k = _get_amplitude self k.
Proof.
  intros Hreg Hc Ht Hne.
  destruct (register_spec _ _ Hreg) as [Hnd Hbits].
  assert (Hlen : Forall (fun k => String.length k = n) (keys (amplitudes self))).
  { eapply Forall_impl; [|exact Hbits]. intros s. apply bitstring_length. }
  pose proof (entangle_qubits_ok self c t n Hlen Hc Ht) as E1.
  set (once := {| num_qubits := num_qubits self;
                  amplitudes := fold_left entangle_swap
                    (fold_left (collect_step (Z.to_nat c) (Z.to_nat t))
                               (keys (amplitudes self)) [])
                    (amplitudes self) |}) in *.
  assert (Hbits1 : Forall (fun s => bitstring n s = true) (keys (amplitudes once))).
  { apply Forall_forall. intros s Hs. simpl in Hs. apply in_keys_swaps in Hs.
    destruct Hs as [Hs|Hs].
    - rewrite Forall_forall in Hbits. now apply Hbits.
    - eapply (collected_members n (Z.to_nat c) (Z.to_nat t));
        [lia|lia|exact Hbits| |exact Hs].
      apply (collected_keys n); (assumption || lia). }
  assert (Hlen1 : Forall (fun k => String.length k = n) (keys (amplitudes once))).
  { eapply Forall_impl; [|exact Hbits1]. intros s. apply bitstring_length. }
  pose proof (entangle_qubits_ok once c t n Hlen1 Hc Ht) as E2.
  eexists. eexists. split; [exact E1|]. split; [exact E2|].
  split; [reflexivity|].
  intros k. unfold _get_amplitude. simpl.
  apply (swap_twice n (Z.to_nat c) (Z.to_nat t)); (assumption || lia).
Qed.

End EntangleInverse.

(* ================================================================== *)
(** ** What is stored: sparsity *)

Section Sparsity.

Context {AR : Arith}.

Lemma row_contribution_big (m : matrix) (t : Z) (s : string) (a : complex)
    (bit row : nat) (cs : list (string * complex)) :
  row_contribution m t s a bit row = Ok cs -> Forall (fun kc => big (snd kc)) cs.
Proof.
  unfold row_contribution.
  destruct (mat_get m row bit) as [x|e]; simpl; [|discriminate].
  destruct (rltb (cabs (cmul x a)) tiny) eqn:E.
  - intros [= <-]. constructor.
  - destruct (list_set (py_list s) t (py_str row)); simpl; [|discriminate].
    intros [= <-]. repeat constructor. exact E.
Qed.

Lemma item_contributions_big (m : matrix) (t : Z) (item : string * complex)
    (cs : list (string * complex)) :
  item_contributions m t item = Ok cs -> Forall (fun kc => big (snd kc)) cs.
Proof.
  unfold item_contributions.
  destruct (str_get (fst item) t) as [ch|e]; simpl; [|discriminate].
  destruct (py_int ch) as [bit|e]; simpl; [|discriminate].
  destruct (row_contribution m t (fst item) (snd item) bit 0) as [c0|e] eqn:E0;
    simpl; [|discriminate].
  destruct (row_contribution m t (fst item) (snd item) bit 1) as [c1|e] eqn:E1;
    simpl; [|discriminate].
  intros [= <-]. apply Forall_app. split; eapply row_contribution_big; eassumption.
Qed.

Lemma contributions_big (m : matrix) (t : Z) (d : dict)
    (cs : list (string * complex)) :
  contributions m t d = Ok cs -> Forall (fun kc => big (snd kc)) cs.
Proof.
  revert cs. induction d as [|item d IH]; intros cs; simpl.
  - intros [= <-]. constructor.
  - destruct (item_contributions m t item) as [c|e] eqn:E; simpl; [|discriminate].
    destruct (contributions m t d) as [cs'|e]; simpl; [|discriminate].
    intros [= <-]. apply Forall_app. split; [|now apply IH].
    eapply item_contributions_big; eassumption.
Qed.







End Sparsity.

(* ================================================================== *)
(** ** Total probability, in exact arithmetic *)

Module ExactNorm.

Import Exact.
Local Open Scope R_scope.

(** *** Complex numbers and sums *)

Lemma norm2_nonneg (z : cplx) : 0 <= norm2 z.
Proof. unfold norm2. nra. Qed.

Lemma c_abs_sq (z : cplx) : c_abs z * c_abs z = norm2 z.
Proof.
  unfold c_abs. fold (norm2 z). apply sqrt_sqrt, norm2_nonneg.
Qed.

Lemma eps_pos : 0 < eps.
Proof. unfold eps. lra. Qed.

Lemma small_iff (z : cplx) :
  rltb (cabs z) tiny = true <-> norm2 z < eps * eps.
Proof.
  simpl. unfold c_abs. fold (norm2 z).
  pose proof eps_pos as He. pose proof (norm2_nonneg z) as Hz.
  pose proof (sqrt_pos (norm2 z)) as Hs.
  pose proof (sqrt_sqrt _ Hz) as Hq.
  destruct (Rlt_dec (sqrt (norm2 z)) eps) as [H|H]; split; intros G;
    try reflexivity; try discriminate; nra.
Qed.

Lemma c_add_0_l (z : cplx) : c_add (0, 0) z = z.
Proof. destruct z. unfold c_add. simpl. f_equal; ring. Qed.

Lemma c_add_0_r (z : cplx) : c_add z (0, 0) = z.
Proof. destruct z. unfold c_add. simpl. f_equal; ring. Qed.

Lemma c_add_assoc (x y z : cplx) : c_add (c_add x y) z = c_add x (c_add y z).
Proof. unfold c_add. simpl. f_equal; ring. Qed.

Lemma c_mul_0_r (x : cplx) : c_mul x (0, 0) = (0, 0).
Proof. unfold c_mul. simpl. f_equal; ring. Qed.

Lemma keep0_zero : keep0 (0, 0) = (0, 0).
Proof. unfold keep0. destruct (rltb _ _); reflexivity. Qed.

Lemma Rsum_app {A : Type} (f : A -> R) (l1 l2 : list A) :
  Rsum f (l1 ++ l2) = Rsum f l1 + Rsum f l2.
Proof. induction l1 as [|x l1 IH]; simpl; [ring|rewrite IH; ring]. Qed.

Lemma Rsum_map {A B : Type} (g : A -> B) (f : B -> R) (l : list A) :
  Rsum f (map g l) = Rsum (fun x => f (g x)) l.
Proof. induction l as [|x l IH]; simpl; [reflexivity|now rewrite IH]. Qed.

Lemma Rsum_ext {A : Type} (f g : A -> R) (l : list A) :
  (forall x, In x l -> f x = g x) -> Rsum f l = Rsum g l.
Proof.
  induction l as [|x l IH]; intros H; simpl; [reflexivity|].
  rewrite (H x) by now left. rewrite IH; [reflexivity|].
  intros y Hy. apply H. now right.
Qed.


Lemma Rsum_const {A : Type} (c : R) (l : list A) :
  Rsum (fun _ => c) l = INR (List.length l) * c.
Proof.
  induction l as [|x l IH]; [simpl; ring|].
  change (Rsum (fun _ => c) (x :: l)) with (c + Rsum (fun _ => c) l).
  rewrite IH. change (List.length (x :: l)) with (S (List.length l)).
  rewrite S_INR. ring.
Qed.

Lemma Rsum_zero {A : Type} (f : A -> R) (l : list A) :
  (forall x, In x l -> f x = 0) -> Rsum f l = 0.
Proof.
  intros H. rewrite (Rsum_ext f (fun _ => 0) l H), Rsum_const. ring.
Qed.

Lemma Csum_app {A : Type} (f : A -> cplx) (l1 l2 : list A) :
  Csum f (l1 ++ l2) = c_add (Csum f l1) (Csum f l2).
Proof.
  induction l1 as [|x l1 IH]; simpl.
  - now rewrite c_add_0_l.
  - now rewrite IH, c_add_assoc.
Qed.

(** The total probability is the sum of the squared magnitudes. *)
Lemma total_probability_sum (d : dict) :
  Rsum (fun kv => norm2 (snd kv)) d = total_probability d.
Proof.
  unfold total_probability.
  assert (G : forall acc : R,
             acc + Rsum (fun kv => norm2 (snd kv)) d =
             fold_left (fun acc kv => radd acc (rsq (cabs (snd kv)))) d acc).
  { induction d as [|kv d IH]; intros acc; simpl fold_left.
    - simpl. ring.
    - rewrite <- IH, c_abs_sq. simpl. ring. }
  rewrite <- G. simpl. ring.
Qed.

(** *** Positions in a basis state *)

Lemma set_nth_twice {A : Type} (j : nat) (x y : A) (l : list A) :
  set_nth j x (set_nth j y l) = set_nth j x l.
Proof.
  revert j. induction l as [|z l IH]; intros [|j]; simpl; auto.
  now rewrite IH.
Qed.

Lemma put_at_twice (j r r' : nat) (s : string) :
  put_at j r (put_at j r' s) = put_at j r s.
Proof.
  unfold put_at. now rewrite py_list_join, set_nth_twice.
Qed.

Lemma bit_at_lt (j : nat) (s : string) : (bit_at j s < 2)%nat.
Proof.
  unfold bit_at. destruct (String.get j s) as [c|]; [|lia].
  destruct (Ascii.eqb c "1"); lia.
Qed.

Lemma bit_at_put_at (j r : nat) (s : string) :
  (j < String.length s)%nat -> (r < 2)%nat -> bit_at j (put_at j r s) = r.
Proof.
  intros Hj Hr. unfold bit_at. rewrite get_put_at_same by assumption.
  destruct r as [|[|r]]; [reflexivity|reflexivity|lia].
Qed.

Lemma put_at_own_bit (n j : nat) (s : string) :
  bitstring n s = true -> (j < n)%nat -> put_at j (bit_at j s) s = s.
Proof.
  intros Hs Hj. apply String.get_correct. intros i.
  pose proof (bitstring_length _ _ Hs) as Hlen.
  destruct (Nat.eq_dec i j) as [->|Hi]; [|now apply get_put_at_other].
  rewrite get_put_at_same by lia.
  destruct (bitstring_get _ _ j Hs Hj) as (c & Hc & Hbit).
  unfold bit_at. rewrite Hc. destruct Hbit as [-> | ->]; reflexivity.
Qed.

Lemma bitstring_put_at (n j r : nat) (s : string) :
  bitstring n s = true -> (r < 2)%nat -> bitstring n (put_at j r s) = true.
Proof.
  unfold bitstring. rewrite !andb_true_iff, !Nat.eqb_eq. intros [Hlen Hbits] Hr.
  split; [now rewrite length_put_at|].
  unfold put_at. rewrite py_list_join.
  apply forallb_set_nth; [assumption|].
  destruct r as [|[|r]]; [reflexivity|reflexivity|lia].
Qed.

Lemma put_at_wrong_bit (j r : nat) (s k : string) :
  (j < String.length s)%nat -> (r < 2)%nat -> bit_at j k <> r ->
  String.eqb (put_at j r s) k = false.
Proof.
  intros Hj Hr Hb. apply String.eqb_neq. intros E. apply Hb.
  rewrite <- E. now apply bit_at_put_at.
Qed.

Lemma put_at_agree (n j : nat) (s k : string) :
  bitstring n s = true -> bitstring n k = true -> (j < n)%nat ->
  String.eqb (put_at j (bit_at j k) s) k = String.eqb s (put_at j (bit_at j s) k).
Proof.
  intros Hs Hk Hj.
  destruct (String.eqb_spec (put_at j (bit_at j k) s) k) as [E|E];
    destruct (String.eqb_spec s (put_at j (bit_at j s) k)) as [E'|E'];
    try reflexivity; exfalso.
  - apply E'. rewrite <- E at 1. rewrite put_at_twice.
    symmetry. now apply put_at_own_bit with (n := n).
  - apply E. rewrite E' at 1. rewrite put_at_twice.
    now apply put_at_own_bit with (n := n).
Qed.

(** *** The amplitude of one state after the gate *)

Lemma Csum_ext {A : Type} (f g : A -> cplx) (l : list A) :
  (forall x, In x l -> f x = g x) -> Csum f l = Csum g l.
Proof.
  induction l as [|x l IH]; intros H; simpl; [reflexivity|].
  rewrite (H x) by now left. rewrite IH; [reflexivity|].
  intros y Hy. apply H. now right.
Qed.

Lemma Csum_add {A : Type} (f g : A -> cplx) (l : list A) :
  Csum (fun x => c_add (f x) (g x)) l = c_add (Csum f l) (Csum g l).
Proof.
  induction l as [|x l IH]; simpl.
  - now rewrite c_add_0_l.
  - rewrite IH. unfold c_add. simpl. f_equal; ring.
Qed.

Lemma Csum_flat_map {A B : Type} (f : B -> cplx) (g : A -> list B) (l : list A) :
  Csum f (flat_map g l) = Csum (fun x => Csum f (g x)) l.
Proof.
  induction l as [|x l IH]; simpl; [reflexivity|].
  now rewrite Csum_app, IH.
Qed.

Lemma get_accumulate (cs : list (string * cplx)) (next : dict) (k : string) :
  dict_get (accumulate next cs) k czero =
  c_add (dict_get next k czero) (Csum (pick k) cs).
Proof.
  revert next. induction cs as [|[k0 c0] cs IH]; intros next.
  - simpl. now rewrite c_add_0_r.
  - change (accumulate next ((k0, c0) :: cs))
      with (accumulate (dict_set next k0 (cadd (dict_get next k0 czero) c0)) cs).
    rewrite IH, dict_get_set.
    change (Csum (pick k) ((k0, c0) :: cs))
      with (c_add (pick k (k0, c0)) (Csum (pick k) cs)).
    unfold pick at 2. simpl fst. simpl snd.
    destruct (String.eqb k0 k) eqn:E.
    + apply String.eqb_eq in E. subst k0. apply c_add_assoc.
    + now rewrite c_add_0_l.
Qed.

Lemma pick_kept (k key : string) (c : cplx) :
  Csum (pick k) (kept (AR := arith) key c) =
  if String.eqb key k then keep0 c else (0, 0).
Proof.
  unfold kept, keep0. destruct (rltb _ tiny); simpl.
  - now destruct (String.eqb key k).
  - unfold pick. simpl. destruct (String.eqb key k); apply c_add_0_r.
Qed.

Lemma dict_get_absent (d : dict) (x : string) (def : cplx) :
  ~ In x (keys d) -> dict_get d x def = def.
Proof.
  intros H. destruct (dict_get_default_or_in d x def) as [[E _]|Hin];
    [assumption|].
  exfalso. apply H. change x with (fst (x, dict_get d x def)). now apply in_map.
Qed.

Lemma Csum_pick_get (h : cplx -> cplx) (x : string) (d : dict) :
  NoDup (keys d) -> h (0, 0) = (0, 0) ->
  Csum (fun kv => if String.eqb (fst kv) x then h (snd kv) else (0, 0)) d =
  h (dict_get d x czero).
Proof.
  intros Hnd Hh. induction d as [|[s a] d IH]; simpl.
  - now rewrite Hh.
  - inversion Hnd as [|? ? Hs Hd]; subst.
    destruct (String.eqb s x) eqn:E.
    + apply String.eqb_eq in E. subst s.
      rewrite IH by assumption. rewrite dict_get_absent by assumption.
      change (@czero arith) with ((0, 0) : cplx). rewrite Hh. apply c_add_0_r.
    + rewrite IH by assumption. apply c_add_0_l.
Qed.

(** What one entry of the register sends to the state [k]. *)
Lemma pick_item (m : matrix) (n j : nat) (k s : string) (a : cplx) :
  bitstring n s = true -> bitstring n k = true -> (j < n)%nat ->
  Csum (pick k) (item_kept (AR := arith) m j (s, a)) =
  c_add (if String.eqb s (put_at j 0 k)
         then keep0 (c_mul (entry m (bit_at j k) 0) a) else (0, 0))
        (if String.eqb s (put_at j 1 k)
         then keep0 (c_mul (entry m (bit_at j k) 1) a) else (0, 0)).
Proof.
  intros Hs Hk Hj. unfold item_kept. simpl fst. simpl snd.
  rewrite Csum_app, !pick_kept.
  pose proof (bitstring_length _ _ Hs) as Ls.
  pose proof (bitstring_length _ _ Hk) as Lk.
  pose proof (put_at_agree n j s k Hs Hk Hj) as Hag.
  pose proof (bit_at_lt j k) as Bk. pose proof (bit_at_lt j s) as Bs.
  destruct (bit_at j k) as [|[|kb]] eqn:Ek; [| |lia];
    destruct (bit_at j s) as [|[|sb]] eqn:Es; try lia.
  - rewrite (put_at_wrong_bit j 1 s k) by (lia || congruence).
    rewrite (String.eqb_sym s (put_at j 1 k)).
    rewrite (put_at_wrong_bit j 1 k s) by (lia || congruence).
    now rewrite Hag.
  - rewrite (put_at_wrong_bit j 1 s k) by (lia || congruence).
    rewrite (String.eqb_sym s (put_at j 0 k)).
    rewrite (put_at_wrong_bit j 0 k s) by (lia || congruence).
    rewrite Hag. destruct (String.eqb s (put_at j 1 k));
      now rewrite ?c_add_0_l, ?c_add_0_r.
  - rewrite (put_at_wrong_bit j 0 s k) by (lia || congruence).
    rewrite (String.eqb_sym s (put_at j 1 k)).
    rewrite (put_at_wrong_bit j 1 k s) by (lia || congruence).
    rewrite Hag. destruct (String.eqb s (put_at j 0 k));
      now rewrite ?c_add_0_l, ?c_add_0_r.
  - rewrite (put_at_wrong_bit j 0 s k) by (lia || congruence).
    rewrite (String.eqb_sym s (put_at j 0 k)).
    rewrite (put_at_wrong_bit j 0 k s) by (lia || congruence).
    now rewrite Hag.
Qed.

(** The register after the gate, read at a basis state. *)
Lemma get_after_gate (m : matrix) (n j : nat) (d : dict) (k : string) :
  NoDup (keys d) -> Forall (fun s => bitstring n s = true) (keys d) ->
  (j < n)%nat -> bitstring n k = true ->
  dict_get (accumulate [] (flat_map (item_kept m j) d)) k czero =
  gate_at m j (fun x => dict_get d x czero) k.
Proof.
  intros Hnd Hbits Hj Hk. rewrite get_accumulate. simpl dict_get.
  change (@czero arith) with ((0, 0) : cplx). rewrite c_add_0_l.
  rewrite Csum_flat_map.
  rewrite (Csum_ext _
    (fun kv => c_add
       (if String.eqb (fst kv) (put_at j 0 k)
        then keep0 (c_mul (entry m (bit_at j k) 0) (snd kv)) else (0, 0))
       (if String.eqb (fst kv) (put_at j 1 k)
        then keep0 (c_mul (entry m (bit_at j k) 1) (snd kv)) else (0, 0)))).
  - rewrite Csum_add.
    rewrite (Csum_pick_get (fun a => keep0 (c_mul (entry m (bit_at j k) 0) a)))
      by (assumption || (rewrite c_mul_0_r; apply keep0_zero)).
    rewrite (Csum_pick_get (fun a => keep0 (c_mul (entry m (bit_at j k) 1) a)))
      by (assumption || (rewrite c_mul_0_r; apply keep0_zero)).
    reflexivity.
  - intros [s a] Hin. apply pick_item with (n := n); try assumption.
    rewrite Forall_forall in Hbits. apply Hbits.
    change s with (fst (s, a)). now apply in_map.
Qed.

(** *** Sums over all basis states *)

Lemma in_all_states (n : nat) (k : string) :
  In k (all_states n) <-> bitstring n k = true.
Proof.
  revert k. induction n as [|n IH]; intros k.
  - simpl. destruct k as [|c k]; [|simpl; intuition discriminate].
    split; [reflexivity|]. intros _. now left.
  - change (all_states (S n))
      with (map (String "0"%char) (all_states n) ++
            map (String "1"%char) (all_states n))%list.
    rewrite in_app_iff, !in_map_iff. split.
    + intros [(r & <- & Hr)|(r & <- & Hr)]; apply IH in Hr;
        unfold bitstring in *; simpl; exact Hr.
    + destruct k as [|c k]; [discriminate|].
      unfold bitstring. simpl. intros H.
      apply andb_true_iff in H. destruct H as [Hlen H].
      apply andb_true_iff in H. destruct H as [Hc Hk].
      assert (Hr : In k (all_states n)).
      { apply IH. unfold bitstring. now rewrite Hlen, Hk. }
      destruct (is_bit_cases c Hc) as [-> | ->]; [left|right]; now exists k.
Qed.

Lemma nodup_all_states (n : nat) : NoDup (all_states n).
Proof.
  induction n as [|n IH]; [repeat constructor; intros []|].
  change (all_states (S n))
    with (map (String "0"%char) (all_states n) ++
          map (String "1"%char) (all_states n))%list.
  apply NoDup_app.
  - apply Finite.Injective_map_NoDup; [|assumption]. intros a b [= E]. exact E.
  - apply Finite.Injective_map_NoDup; [|assumption]. intros a b [= E]. exact E.
  - intros k H0 H1. apply in_map_iff in H0, H1.
    destruct H0 as (r0 & <- & _). destruct H1 as (r1 & E & _). discriminate.
Qed.



(** A sum over distinct keys may be taken over any larger list of distinct
    keys on which the summand vanishes outside. *)
Lemma Rsum_subset (f : string -> R) (l1 l2 : list string) :
  NoDup l1 -> NoDup l2 -> incl l1 l2 ->
  (forall k, In k l2 -> ~ In k l1 -> f k = 0) ->
  Rsum f l1 = Rsum f l2.
Proof.
  intros H1. revert l2. induction H1 as [|a l1 Ha H1 IH]; intros l2 H2 Hincl Hz.
  - simpl. symmetry. apply Rsum_zero. intros k Hk. now apply Hz.
  - assert (Hin : In a l2) by (apply Hincl; now left).
    apply in_split in Hin. destruct Hin as (pre & post & ->).
    pose proof (NoDup_remove_1 _ _ _ H2) as H2'.
    pose proof (NoDup_remove_2 _ _ _ H2) as Hna.
    rewrite Rsum_app. simpl. rewrite (IH (pre ++ post)%list); trivial.
    + rewrite Rsum_app. ring.
    + intros k Hk. assert (Hk' : In k (pre ++ a :: post)).
      { apply Hincl. now right. }
      apply in_app_or in Hk'. apply in_or_app.
      destruct Hk' as [Hk'|[<-|Hk']]; [now left|contradiction|now right].
    + intros k Hk Hnk. apply Hz.
      * apply in_app_or in Hk. apply in_or_app. simpl. tauto.
      * intros [<-|Hk']; [contradiction|contradiction].
Qed.

Lemma dict_get_in (d : dict) (k : string) (v def : cplx) :
  NoDup (keys d) -> In (k, v) d -> dict_get d k def = v.
Proof.
  induction d as [|[k0 v0] d IH]; intros Hnd Hin; [contradiction|].
  simpl. inversion Hnd as [|? ? Hk Hd]; subst.
  destruct Hin as [[= -> ->]|Hin].
  - now rewrite String.eqb_refl.
  - destruct (String.eqb k0 k) eqn:E; [|now apply IH].
    apply String.eqb_eq in E. subst k0. exfalso. apply Hk.
    change k with (fst (k, v)). now apply in_map.
Qed.

(** The total probability as a sum over all basis states. *)
Lemma total_over_states (n : nat) (d : dict) :
  NoDup (keys d) -> Forall (fun s => bitstring n s = true) (keys d) ->
  Rsum (fun k => norm2 (dict_get d k czero)) (all_states n) = total_probability d.
Proof.
  intros Hnd Hbits. rewrite <- total_probability_sum.
  rewrite <- (Rsum_subset _ (keys d)).
  - unfold keys. rewrite Rsum_map. apply Rsum_ext. intros [k v] Hin.
    simpl. now rewrite (dict_get_in d k v _ Hnd Hin).
  - assumption.
  - apply nodup_all_states.
  - intros k Hk. apply in_all_states. rewrite Forall_forall in Hbits. auto.
  - intros k _ Hk. rewrite dict_get_absent by assumption.
    unfold norm2. simpl. ring.
Qed.

(** *** A unitary matrix keeps the total *)





(** *** The total probability after the gate *)

Lemma nodup_accumulate (cs : list (string * cplx)) (next : dict) :
  NoDup (keys next) -> NoDup (keys (accumulate next cs)).
Proof.
  revert next. induction cs as [|kc cs IH]; intros next H; [assumption|].
  apply IH. now apply nodup_dict_set.
Qed.

Lemma bitstrings_after_gate (m : matrix) (n j : nat) (d : dict) :
  Forall (fun s => bitstring n s = true) (keys d) ->
  Forall (fun s => bitstring n s = true)
         (keys (accumulate [] (flat_map (item_kept m j) d))).
Proof.
  intros Hbits. apply Forall_forall. intros k Hk.
  apply in_keys_accumulate in Hk. destruct Hk as [[]|Hk].
  apply in_map_iff in Hk. destruct Hk as (kc & <- & Hkc).
  apply in_flat_map in Hkc. destruct Hkc as (item & Hitem & Hkc).
  apply in_item_kept in Hkc. destruct Hkc as (r & Hr & -> & _).
  apply bitstring_put_at; [|assumption].
  rewrite Forall_forall in Hbits. apply Hbits. now apply in_map.
Qed.



(** *** What the threshold removes *)














Lemma bit_at_tail (j : nat) (c : ascii) (r : string) :
  bit_at (S j) (String c r) = bit_at j r.
Proof. reflexivity. Qed.






(** *** A register on which the threshold changes the total *)

Section TwoLevel.

Variables (n : nat) (x e : R).







End TwoLevel.








End ExactNorm.

(* ================================================================== *)
(** ** The entangled-pair scenario, run in binary64 *)

Module Runs.

Import F64 Scenario.



(** In binary64 the sum of the squared magnitudes is not exactly 1 after the
    Hadamard gate of the script: it is one unit in the last place below,
    well within the tolerance [1e-6]. *)
Lemma hadamard_total_binary64 :
  exists out,
    apply_gate fresh Hadamard 0 = Ok out /\
    total_probability (amplitudes out) = 0x1.ffffffffffffep-1%float /\
    PrimFloat.ltb (1 - total_probability (amplitudes out))
                  0x1.0c6f7a0b5ed8dp-20 = true.
Proof.
  eexists. split; [vm_compute; reflexivity|]. split; vm_compute; reflexivity.
Qed.

(** C6: a register that holds the two entries of the Bell pair, in whatever
    order they were entered, is walked in the order [00], [11]; a draw of
    0.3 collapses it to [00] and a draw of 0.9 to [11]; afterwards the
    register is the single entry mapping the outcome to [1+0i]. *)
Theorem bell_measurement (self : QuantumComputer) :
  Permutation (amplitudes self) (amplitudes bell_pair) ->
  keys (sorted (amplitudes self)) = ["00"; "11"] /\
  collapse_to_measurement self draw_03 =
    ("00", computer (num_qubits self) [("00", amp 1)]) /\
  collapse_to_measurement self draw_09 =
    ("11", computer (num_qubits self) [("11", amp 1)]).
Proof.
  intros Hp. destruct self as [nq d]. cbn [amplitudes num_qubits] in *.
  apply Permutation_sym in Hp.
  apply Permutation_length_2_inv in Hp.
  destruct Hp as [-> | ->]; repeat split; vm_compute; reflexivity.
Qed.

Lemma bell_measurement_witness :
  keys (sorted (amplitudes bell_pair_reversed)) = ["00"; "11"] /\
  collapse_to_measurement bell_pair_reversed draw_03 =
    ("00", computer 2 [("00", amp 1)]) /\
  collapse_to_measurement bell_pair_reversed draw_09 =
    ("11", computer 2 [("11", amp 1)]).
Proof.
  apply (bell_measurement bell_pair_reversed). apply perm_swap.
Defined.

(** C7 as stated fails: a target index of 5 on two qubits goes unnoticed
    when no state has the control bit set, the index -1 addresses the last
    qubit, and equal control and target indices are accepted. *)
Lemma bad_indices_accepted :
  entangle_qubits fresh 0 5 = Ok fresh /\
  apply_gate fresh Hadamard (-1) =
    Ok (computer 2 [("00", amp inv_sqrt2); ("01", amp inv_sqrt2)]) /\
  entangle_qubits only_10 0 0 = Ok (computer 2 [("10", amp 0); ("00", amp 1)]).
Proof. repeat split; vm_compute; reflexivity. Qed.

Lemma indices_as_python_reads_them_witness :
  (apply_gate only_10 Hadamard 2 = Raise IndexError /\
   entangle_qubits only_10 2 0 = Raise IndexError /\
   entangle_qubits only_10 0 2 = Raise IndexError) /\
  apply_gate fresh Hadamard (-1) = apply_gate fresh Hadamard 1 /\
  exists out, entangle_qubits only_10 0 0 = Ok out.
Proof.
  assert (Hlen : Forall (fun k => String.length k = 2%nat)
                        (keys (amplitudes only_10))) by (repeat constructor).
  assert (Hlen' : Forall (fun k => String.length k = 2%nat)
                         (keys (amplitudes fresh))) by (repeat constructor).
  destruct (@indices_as_python_reads_them arith only_10 Hadamard 2 2 0 Hlen)
    as (H1 & _ & H3).
  destruct (@indices_as_python_reads_them arith fresh Hadamard 2 (-1) 0 Hlen')
    as (_ & H2 & _).
  split; [|split].
  - destruct H1 as (Ha & Hb & Hc);
      [discriminate | left; simpl; lia |].
    split; [exact Ha | split; [exact Hb |]].
    apply Hc.
    + unfold out_of_range. simpl. lia.
    + constructor. reflexivity.
  - apply H2. simpl. lia.
  - apply H3. simpl. lia.
Defined.



Lemma entangle_twice_witness :
  exists once twice,
    entangle_qubits plus_zero 0 1 = Ok once /\
    entangle_qubits once 0 1 = Ok twice /\
    num_qubits twice = num_qubits plus_zero /\
    forall k, _get_amplitude twice k = _get_amplitude plus_zero k.
Proof.
  apply (entangle_twice plus_zero 0 1 2); [reflexivity|lia|lia|lia].
Defined.

Lemma entangle_fixes_control_zero_witness :
  exists out,
    entangle_qubits plus_zero 0 1 = Ok out /\
    forall k, String.get 0 k = Some "0"%char ->
              _get_amplitude out k = _get_amplitude plus_zero k.
Proof.
  apply (entangle_fixes_control_zero plus_zero 0 1 2);
    [repeat constructor|lia|lia|lia].
Defined.

Lemma collapse_fallback_witness :
  exists outcome,
    collapse_to_measurement halves draw_09 = (outcome, halves) /\
    (amplitudes halves = [] -> outcome = "") /\
    (amplitudes halves <> [] ->
       In outcome (keys (amplitudes halves)) /\
       forall k, In k (keys (amplitudes halves)) -> String.leb k outcome = true).
Proof.
  apply (collapse_fallback halves draw_09).
  intros m Hm. simpl in Hm.
  destruct m as [|[|[|m]]]; [lia| | |lia]; vm_compute; reflexivity.
Defined.

Lemma apply_gate_keys_witness :
  exists out,
    apply_gate fresh Hadamard 0 = Ok out /\
    num_qubits out = num_qubits fresh /\
    forall k, In k (keys (amplitudes out)) ->
      exists s, In s (keys (amplitudes fresh)) /\
                String.length k = String.length s /\
                String.length k = 2%nat /\
                forall i, i <> Z.to_nat 0 -> String.get i k = String.get i s.
Proof.
  apply (apply_gate_keys fresh Hadamard 2 0); [reflexivity|reflexivity|lia].
Defined.

End Runs.

(* ================================================================== *)
(** ** The register as an invariant of the operations *)

Section RegisterInvariant.

Context {AR : Arith}.

Lemma get_absent (d : dict) (k : string) (def : complex) :
  ~ In k (keys d) -> dict_get d k def = def.
Proof.
  induction d as [|[k0 v0] d IH]; intros H; simpl; [reflexivity|].
  destruct (String.eqb k0 k) eqn:E.
  - apply String.eqb_eq in E. subst. exfalso. apply H. now left.
  - apply IH. intros Hin. apply H. now right.
Qed.

Lemma get_present (d : dict) (k : string) (v def : complex) :
  NoDup (keys d) -> In (k, v) d -> dict_get d k def = v.
Proof.
  induction d as [|[k0 v0] d IH]; intros Hnd Hin; [contradiction|].
  simpl. inversion Hnd as [|? ? Hk Hd]; subst.
  destruct Hin as [[= -> ->]|Hin].
  - now rewrite String.eqb_refl.
  - destruct (String.eqb k0 k) eqn:E; [|now apply IH].
    apply String.eqb_eq in E. subst k0. exfalso. apply Hk.
    change k with (fst (k, v)). now apply in_map.
Qed.

(** [_get_amplitude] gives the stored amplitude of a stored state and
    [0+0i] for every other string; it cannot fail. *)
Theorem get_amplitude_lookup (self : QuantumComputer) (k : string) :
  NoDup (keys (amplitudes self)) ->
  (forall v, In (k, v) (amplitudes self) -> _get_amplitude self k = v) /\
  (~ In k (keys (amplitudes self)) -> _get_amplitude self k = czero).
Proof.
  intros Hnd. split.
  - intros v Hin. now apply get_present.
  - intros Hk. now apply get_absent.
Qed.

Lemma register_intro (n : nat) (d : dict) :
  NoDup (keys d) -> Forall (fun s => bitstring n s = true) (keys d) ->
  register n d = true.
Proof.
  intros Hnd Hbits. unfold register. apply andb_true_iff. split.
  - now apply distinct_nodup.
  - apply forallb_forall. now apply Forall_forall.
Qed.

Lemma bitstring_repeat (m : nat) :
  bitstring m (string_of_list_ascii (repeat "0"%char m)) = true.
Proof.
  unfold bitstring. apply andb_true_iff. split.
  - apply Nat.eqb_eq. change (string_of_list_ascii ?l) with (py_join l).
    rewrite length_py_join. apply repeat_length.
  - change (string_of_list_ascii ?l) with (py_join l). rewrite py_list_join.
    apply forallb_forall. intros c Hc. apply repeat_spec in Hc. now subst.
Qed.

(** Construction gives a register: for every count [n], also zero or
    negative, the object holds one basis state of [max n 0] bits and its
    amplitude is 1 there and 0 on every other string. *)
Theorem init_is_register (n : Z) :
  num_qubits (__init__ n) = n /\
  register (Z.to_nat n) (amplitudes (__init__ n)) = true /\
  forall k, _get_amplitude (__init__ n) k =
            if String.eqb (py_repeat "0"%char n) k then cone else czero.
Proof.
  split; [reflexivity|]. split.
  - apply register_intro; simpl.
    + repeat constructor. intros [].
    + repeat constructor. apply bitstring_repeat.
  - intros k. reflexivity.
Qed.

Lemma accumulate_distinct (cs : list (string * complex)) (next : dict) :
  NoDup (keys next) -> NoDup (keys (accumulate next cs)).
Proof.
  revert next. induction cs as [|kc cs IH]; intros next H; [assumption|].
  apply IH. now apply nodup_dict_set.
Qed.

Lemma put_at_bitstring (n j r : nat) (s : string) :
  bitstring n s = true -> (r < 2)%nat -> bitstring n (put_at j r s) = true.
Proof.
  unfold bitstring. rewrite !andb_true_iff, !Nat.eqb_eq. intros [Hlen Hbits] Hr.
  split; [now rewrite length_put_at|].
  unfold put_at. rewrite py_list_join.
  apply forallb_set_nth; [assumption|].
  destruct r as [|[|r]]; [reflexivity|reflexivity|lia].
Qed.

Lemma gate_output_register (m : matrix) (n j : nat) (d : dict) :
  Forall (fun s => bitstring n s = true) (keys d) ->
  register n (accumulate [] (flat_map (item_kept m j) d)) = true.
Proof.
  intros Hbits. apply register_intro.
  - apply accumulate_distinct. constructor.
  - apply Forall_forall. intros k Hk.
    apply in_keys_accumulate in Hk. destruct Hk as [[]|Hk].
    apply in_map_iff in Hk. destruct Hk as (kc & <- & Hkc).
    apply in_flat_map in Hkc. destruct Hkc as (item & Hitem & Hkc).
    apply in_item_kept in Hkc. destruct Hkc as (r & Hr & -> & _).
    apply put_at_bitstring; [|assumption].
    rewrite Forall_forall in Hbits. apply Hbits. now apply in_map.
Qed.

Lemma collect_covers (cj tj : nat) (s : string) (ks : list string)
    (acc : list (string * string)) :
  has_control cj s = true ->
  In s ks \/ In s (members acc) ->
  In s (members (fold_left (collect_step cj tj) ks acc)).
Proof.
  intros Hcs. revert acc.
  induction ks as [|x ks IH]; intros acc [H|H]; simpl.
  - contradiction.
  - assumption.
  - destruct H as [<-|H]; [|apply IH; now left].
    apply IH. right. unfold collect_step. rewrite Hcs.
    destruct (pair_in (flip_at tj x, x) acc) eqn:E.
    + apply pair_in_iff in E. apply in_members.
      exists (flip_at tj x), x. tauto.
    + apply in_members_app. right. simpl. now left.
  - apply IH. right. unfold collect_step.
    destruct (has_control cj x); [|assumption].
    destruct (pair_in _ acc); [assumption|].
    apply in_members_app. now left.
Qed.

(** [entangle_qubits] keeps the register, for any two indices below [n]
    (equal ones too): it returns, no key is lost, and every new key is the
    partner of a stored state that has the control bit set. *)
Theorem entangle_keeps_register (self : QuantumComputer) (c t : Z) (n : nat) :
  register n (amplitudes self) = true ->
  0 <= c < Z.of_nat n -> 0 <= t < Z.of_nat n ->
  exists out,
    entangle_qubits self c t = Ok out /\
    num_qubits out = num_qubits self /\
    register n (amplitudes out) = true /\
    forall k, In k (keys (amplitudes out)) <->
      In k (keys (amplitudes self)) \/
      exists s, In s (keys (amplitudes self)) /\
                has_control (Z.to_nat c) s = true /\
                k = flip_at (Z.to_nat t) s.
Proof.
  intros Hreg Hc Ht. destruct (register_spec _ _ Hreg) as [Hnd Hbits].
  assert (Hlen : Forall (fun k => String.length k = n) (keys (amplitudes self))).
  { eapply Forall_impl; [|exact Hbits]. intros s. apply bitstring_length. }
  eexists. split; [apply (entangle_qubits_ok _ _ _ _ Hlen Hc Ht)|].
  split; [reflexivity|]. simpl.
  set (ps := fold_left (collect_step (Z.to_nat c) (Z.to_nat t))
                       (keys (amplitudes self)) []).
  assert (Hmem : forall k, In k (members ps) ->
            In k (keys (amplitudes self)) \/
            exists s, In s (keys (amplitudes self)) /\
                      has_control (Z.to_nat c) s = true /\
                      k = flip_at (Z.to_nat t) s).
  { intros k Hk. apply in_members in Hk. destruct Hk as (a & b & Hab & Hk).
    apply collect_pairs in Hab. destruct Hab as [[]|(Ha & Hca & Hb)].
    simpl in *. destruct Hk as [-> | ->]; [now left|].
    right. exists a. auto. }
  split.
  - apply register_intro; [now apply nodup_keys_swaps|].
    apply Forall_forall. intros k Hk. apply in_keys_swaps in Hk.
    rewrite Forall_forall in Hbits.
    destruct Hk as [Hk|Hk]; [now apply Hbits|].
    destruct (Hmem k Hk) as [Hk'|(s & Hs & _ & ->)]; [now apply Hbits|].
    apply bitstring_flip_at. now apply Hbits.
  - intros k. rewrite in_keys_swaps. split.
    + intros [Hk|Hk]; [now left|now apply Hmem].
    + intros [Hk|(s & Hs & Hcs & ->)]; [now left|].
      assert (Hcov : In s (members ps)).
      { apply collect_covers; [assumption|now left]. }
      right. apply in_members in Hcov. destruct Hcov as (a & b & Hab & Hk).
      pose proof Hab as Hab'.
      apply collect_pairs in Hab'. destruct Hab' as [[]|(Ha & Hca & Hb)].
      simpl in *. apply in_members.
      destruct Hk as [-> | ->].
      * exists a, b. split; [assumption|]. right. now symmetry.
      * exists a, (flip_at (Z.to_nat t) a). rewrite <- Hb. split; [assumption|].
        left. rewrite Hb. apply (flip_at_involutive n); [lia|].
        rewrite Forall_forall in Hbits. now apply Hbits.
Qed.

End RegisterInvariant.

(* ================================================================== *)
(** ** What a measurement chooses *)

Section MeasurementRule.

Context {AR : Arith}.

Lemma collapse_walk_some (rand c : real) (l : dict) (s : string) :
  collapse_walk rand c l = Some s ->
  exists m a,
    nth_error l m = Some (s, a) /\
    rltb rand (fold_left (fun acc item => radd acc (rsq (cabs (snd item))))
                         (firstn (S m) l) c) = true /\
    forall j, (1 <= j <= m)%nat ->
      rltb rand (fold_left (fun acc item => radd acc (rsq (cabs (snd item))))
                           (firstn j l) c) = false.
Proof.
  revert c. induction l as [|[k a] l IH]; intros c H; simpl in H; [discriminate|].
  destruct (rltb rand (radd c (rsq (cabs a)))) eqn:E.
  - injection H as <-. exists 0%nat, a. repeat split.
    + simpl. exact E.
    + intros j Hj. lia.
  - destruct (IH _ H) as (m & a' & Hn & Ht & Hf).
    exists (S m), a'. repeat split; try assumption.
    intros [|[|j]] Hj; [lia|exact E|].
    apply (Hf (S j)). lia.
Qed.

Lemma collapse_walk_none_inv (rand c : real) (l : dict) :
  collapse_walk rand c l = None ->
  forall j, (1 <= j <= List.length l)%nat ->
    rltb rand (fold_left (fun acc item => radd acc (rsq (cabs (snd item))))
                         (firstn j l) c) = false.
Proof.
  revert c. induction l as [|[k a] l IH]; intros c H j Hj; simpl in *; [lia|].
  destruct (rltb rand (radd c (rsq (cabs a)))) eqn:E; [discriminate|].
  destruct j as [|[|j]]; [lia|exact E|].
  apply (IH _ H (S j)). lia.
Qed.

Lemma collapse_walk_key (rand c : real) (l : dict) (s : string) :
  collapse_walk rand c l = Some s -> In s (keys l).
Proof.
  intros H. destruct (collapse_walk_some _ _ _ _ H) as (m & a & Hn & _).
  apply nth_error_In in Hn. change s with (fst (s, a)). now apply in_map.
Qed.

Lemma in_keys_sorted (d : dict) (k : string) :
  In k (keys (sorted d)) <-> In k (keys d).
Proof.
  unfold keys. rewrite !in_map_iff. split; intros (x & E & Hx); exists x;
    (split; [assumption|]); now apply in_sorted.
Qed.

(** A measurement keeps the register and its outcome is a stored state:
    afterwards the dictionary is the old one or the single entry of the
    outcome, and on a register with an entry the outcome is one of its
    keys. *)
Theorem collapse_keeps_register (self : QuantumComputer) (rand : real) (n : nat) :
  register n (amplitudes self) = true ->
  num_qubits (snd (collapse_to_measurement self rand)) = num_qubits self /\
  register n (amplitudes (snd (collapse_to_measurement self rand))) = true /\
  (amplitudes (snd (collapse_to_measurement self rand)) = amplitudes self \/
   amplitudes (snd (collapse_to_measurement self rand)) =
     [(fst (collapse_to_measurement self rand), cone)]) /\
  (amplitudes self <> [] ->
   In (fst (collapse_to_measurement self rand)) (keys (amplitudes self))).
Proof.
  intros Hreg. destruct (register_spec _ _ Hreg) as [Hnd Hbits].
  unfold collapse_to_measurement.
  destruct (collapse_walk rand rzero (sorted (amplitudes self))) as [s|] eqn:E;
    simpl.
  - apply collapse_walk_key in E. rewrite in_keys_sorted in E.
    split; [reflexivity|]. split; [|split; [now right|now intros _]].
    apply register_intro; simpl.
    + repeat constructor. intros [].
    + repeat constructor. rewrite Forall_forall in Hbits. now apply Hbits.
  - split; [reflexivity|]. split; [assumption|]. split; [now left|].
    intros Hne.
    assert (Hl : sorted (amplitudes self) <> []).
    { intros C. apply (f_equal (@List.length _)) in C.
      rewrite length_sorted in C. destruct (amplitudes self); [congruence|].
      discriminate. }
    destruct (sorted (amplitudes self)) as [|x l] eqn:El; [congruence|].
    apply in_keys_sorted. rewrite El. apply in_map. now apply last_in.
Qed.

(** *** The order of insertion does not matter *)

Lemma insert_item_perm (x : string * complex) (l : dict) :
  Permutation (insert_item x l) (x :: l).
Proof.
  induction l as [|y l IH]; simpl; [reflexivity|].
  destruct (String.leb (fst x) (fst y)); [reflexivity|].
  rewrite IH. apply perm_swap.
Qed.

Lemma sorted_perm (d : dict) : Permutation (sorted d) d.
Proof.
  induction d as [|x d IH]; simpl; [reflexivity|].
  rewrite insert_item_perm. now constructor.
Qed.

Lemma sorted_unique (l1 l2 : dict) :
  StronglySorted key_le l1 -> StronglySorted key_le l2 ->
  Permutation l1 l2 -> NoDup (keys l1) -> l1 = l2.
Proof.
  intros H1. revert l2. induction H1 as [|x l1 Hs1 IH Hx]; intros l2 H2 Hp Hnd.
  - apply Permutation_nil in Hp. now subst.
  - destruct l2 as [|y l2].
    { apply Permutation_sym, Permutation_nil in Hp. discriminate. }
    inversion H2 as [|? ? Hs2 Hy]; subst.
    inversion Hnd as [|? ? Hk Hnd']; subst.
    assert (Exy : x = y).
    { assert (Hxin : In x (y :: l2)).
      { eapply Permutation_in; [exact Hp|now left]. }
      assert (Hyin : In y (x :: l1)).
      { eapply Permutation_in; [apply Permutation_sym; exact Hp|now left]. }
      destruct Hxin as [->|Hxin]; [reflexivity|].
      destruct Hyin as [->|Hyin]; [reflexivity|].
      rewrite Forall_forall in Hx, Hy.
      pose proof (Hx _ Hyin) as Lxy. pose proof (Hy _ Hxin) as Lyx.
      unfold key_le in *.
      pose proof (String.leb_antisym _ _ Lxy Lyx) as Ek.
      exfalso. apply Hk. rewrite Ek. now apply in_map. }
    subst y. f_equal. apply IH; try assumption.
    eapply Permutation_cons_inv; eassumption.
Qed.

Lemma sorted_of_perm (d1 d2 : dict) :
  Permutation d1 d2 -> NoDup (keys d1) -> sorted d1 = sorted d2.
Proof.
  intros Hp Hnd. apply sorted_unique; try apply sorted_is_sorted.
  - rewrite !sorted_perm. exact Hp.
  - eapply Permutation_NoDup; [|exact Hnd].
    apply Permutation_map, Permutation_sym, sorted_perm.
Qed.

(** Two objects that hold the same entries, entered in a different order,
    give the same outcome for the same draw and print the same lines. *)
Theorem insertion_order_is_irrelevant (a b : QuantumComputer) (rand : real) :
  Permutation (amplitudes a) (amplitudes b) ->
  NoDup (keys (amplitudes a)) ->
  fst (collapse_to_measurement a rand) = fst (collapse_to_measurement b rand) /\
  read_state a = read_state b.
Proof.
  intros Hp Hnd. pose proof (sorted_of_perm _ _ Hp Hnd) as Es.
  split.
  - unfold collapse_to_measurement. rewrite Es.
    destruct (collapse_walk rand rzero (sorted (amplitudes b))); reflexivity.
  - unfold read_state. rewrite Es.
    destruct (amplitudes a) as [|x la] eqn:Ea;
      destruct (amplitudes b) as [|y lb] eqn:Eb; try reflexivity.
    + apply Permutation_nil in Hp. discriminate.
    + apply Permutation_sym, Permutation_nil in Hp. discriminate.
Qed.

Lemma show_item_lines (d : dict) (k : string) (a : complex) (p : real) :
  In (StateLine k a p) (flat_map show_item (sorted d)) <->
  In (k, a) d /\ p = rsq (cabs a) /\ rltb tiny p = true.
Proof.
  rewrite in_flat_map. split.
  - intros ([k' a'] & Hin & Hs). rewrite in_sorted in Hin.
    unfold show_item in Hs. simpl in Hs.
    destruct (rltb tiny (rsq (cabs a'))) eqn:E; [|contradiction].
    destruct Hs as [Hs|[]]. injection Hs as <- <- <-. auto.
  - intros (Hin & -> & Hp). exists (k, a). split; [now rewrite in_sorted|].
    unfold show_item. simpl. rewrite Hp. now left.
Qed.

Lemma read_state_total_lines (self : QuantumComputer) (k : string) (a : complex)
    (p : real) :
  In (StateLine k a p) (read_state self) <->
  In (k, a) (amplitudes self) /\ p = rsq (cabs a) /\ rltb tiny p = true.
Proof.
  unfold read_state. pose proof (show_item_lines (amplitudes self) k a p) as G.
  destruct (amplitudes self) as [|x d] eqn:E.
  - simpl. split; [intros [H|[H|[]]]; discriminate|intros [[] _]].
  - rewrite <- G. simpl. split.
    + intros [H|H]; [discriminate|]. apply in_app_or in H.
      destruct H as [H|[H|[]]]; [assumption|discriminate].
    + intros H. right. apply in_or_app. now left.
Qed.

End MeasurementRule.

(* ================================================================== *)
(** ** The methods with [OverflowError] *)

Section Overflows.

Context {AR : Arith} {OV : Overflow AR}.

Lemma probability_of_spec (a : complex) :
  Checked.probability_of a =
  if Checked.amp_overflows a then Raise OverflowError else Ok (rsq (cabs a)).
Proof.
  unfold Checked.probability_of, Checked.py_abs, Checked.py_sq,
    Checked.amp_overflows.
  destruct (abs_overflows a); simpl; [reflexivity|].
  destruct (sq_overflows (cabs a)); reflexivity.
Qed.

(** *** [apply_gate] *)

Lemma gate_item_checked (m : matrix) (n : nat) (t : Z) (item : string * complex)
    (next : dict) :
  two_by_two m = true -> bitstring n (fst item) = true -> 0 <= t < Z.of_nat n ->
  Checked.gate_item m t next item =
  if Checked.item_overflows m (Z.to_nat t) item then Raise OverflowError
  else gate_item m t next item.
Proof.
  intros Hm Hs Ht. destruct item as [s a]. simpl in Hs.
  pose proof (bitstring_length _ _ Hs) as Hlen.
  destruct (bitstring_get _ _ (Z.to_nat t) Hs) as (c & Hget & Hc); [lia|].
  assert (Hint : py_int c = Ok (bit_at (Z.to_nat t) s) /\
                 (bit_at (Z.to_nat t) s < 2)%nat).
  { unfold bit_at. rewrite Hget. destruct Hc as [-> | ->]; simpl; split;
      (reflexivity || lia). }
  destruct Hint as [Hint Hlt].
  unfold Checked.item_overflows, Checked.gate_item, gate_item.
  cbn [fst snd]. unfold str_get. rewrite py_index_in by lia.
  cbn [bind]. rewrite Hget. cbn [bind]. rewrite Hint. cbn [bind for_each seq].
  unfold Checked.gate_row, gate_row, Checked.py_abs, list_set.
  rewrite !mat_get_entry by (assumption || lia). cbn [bind].
  rewrite length_py_list, py_index_in by lia. cbn [bind].
  destruct (abs_overflows (cmul (entry m 0 _) a)); cbn [bind orb];
    [reflexivity|].
  destruct (rltb (cabs (cmul (entry m 0 _) a)) tiny); cbn [bind];
    destruct (abs_overflows (cmul (entry m 1 _) a)); reflexivity.
Qed.

Lemma gate_item_returns (m : matrix) (n : nat) (t : Z) (item : string * complex)
    (next : dict) :
  two_by_two m = true -> bitstring n (fst item) = true -> 0 <= t < Z.of_nat n ->
  exists next', gate_item m t next item = Ok next'.
Proof.
  intros Hm Hs Ht. rewrite gate_item_contributions.
  rewrite (item_contributions_ok _ _ _ _ Hm Hs Ht). simpl. now eexists.
Qed.

Lemma for_each_gate_item_checked (m : matrix) (n : nat) (t : Z) (d next : dict) :
  two_by_two m = true -> forallb (bitstring n) (keys d) = true ->
  0 <= t < Z.of_nat n ->
  for_each (Checked.gate_item m t) d next =
  if existsb (Checked.item_overflows m (Z.to_nat t)) d then Raise OverflowError
  else for_each (gate_item m t) d next.
Proof.
  intros Hm Hd Ht. revert next.
  induction d as [|item d IH]; intros next; [reflexivity|].
  simpl in Hd. apply andb_true_iff in Hd. destruct Hd as [H1 H2].
  cbn [for_each existsb].
  rewrite (gate_item_checked m n t item next Hm H1 Ht).
  destruct (Checked.item_overflows m (Z.to_nat t) item); [reflexivity|].
  destruct (gate_item_returns m n t item next Hm H1 Ht) as (next' & E).
  rewrite E. cbn [bind orb]. now apply IH.
Qed.

(** [apply_gate] raises [OverflowError] exactly when the magnitude of some
    product [M[r][b] * a] is too large, and the object is then as it was.
    Otherwise it returns, and it keeps the register: on distinct basis
    states of [n] bits, a 2x2 matrix and a target below [n], the new
    dictionary again has distinct keys, all basis states of [n] bits. *)
Theorem checked_gate_keeps_register (self : QuantumComputer) (m : matrix)
    (n : nat) (t : Z) :
  two_by_two m = true ->
  register n (amplitudes self) = true ->
  0 <= t < Z.of_nat n ->
  (existsb (Checked.item_overflows m (Z.to_nat t)) (amplitudes self) = true /\
   Checked.apply_gate self m t = Raise OverflowError) \/
  (existsb (Checked.item_overflows m (Z.to_nat t)) (amplitudes self) = false /\
   exists out,
     Checked.apply_gate self m t = Ok out /\
     apply_gate self m t = Ok out /\
     num_qubits out = num_qubits self /\
     register n (amplitudes out) = true).
Proof.
  intros Hm Hreg Ht. destruct (register_spec _ _ Hreg) as [Hnd Hbits].
  assert (Hb : forallb (bitstring n) (keys (amplitudes self)) = true).
  { unfold register in Hreg. apply andb_true_iff in Hreg. tauto. }
  pose proof (apply_gate_ok _ _ _ _ Hm Hb Ht) as Hok.
  pose proof Hok as Hok'. unfold apply_gate in Hok'.
  unfold Checked.apply_gate.
  rewrite (for_each_gate_item_checked m n t _ [] Hm Hb Ht).
  destruct (existsb (Checked.item_overflows m (Z.to_nat t)) (amplitudes self)).
  - left. split; reflexivity.
  - right. split; [reflexivity|].
    eexists. split; [exact Hok'|]. split; [exact Hok|].
    split; [reflexivity|].
    cbn [amplitudes]. now apply gate_output_register.
Qed.

(** *** [collapse_to_measurement] *)

Lemma checked_walk (rand c : real) (l : dict) :
  (exists m k a,
     nth_error l m = Some (k, a) /\
     Forall (fun b => Checked.amp_overflows (snd b) = false) (firstn (S m) l) /\
     rltb rand (fold_left (fun acc item => radd acc (rsq (cabs (snd item))))
                          (firstn (S m) l) c) = true /\
     (forall j, (1 <= j <= m)%nat ->
        rltb rand (fold_left (fun acc item => radd acc (rsq (cabs (snd item))))
                             (firstn j l) c) = false) /\
     Checked.collapse_walk rand c l = Ok (Some k)) \/
  (Forall (fun b => Checked.amp_overflows (snd b) = false) l /\
   (forall j, (1 <= j <= List.length l)%nat ->
      rltb rand (fold_left (fun acc item => radd acc (rsq (cabs (snd item))))
                           (firstn j l) c) = false) /\
   Checked.collapse_walk rand c l = Ok None) \/
  (exists m k a,
     nth_error l m = Some (k, a) /\
     Forall (fun b => Checked.amp_overflows (snd b) = false) (firstn m l) /\
     Checked.amp_overflows a = true /\
     (forall j, (1 <= j <= m)%nat ->
        rltb rand (fold_left (fun acc item => radd acc (rsq (cabs (snd item))))
                             (firstn j l) c) = false) /\
     Checked.collapse_walk rand c l = Raise OverflowError).
Proof.
  revert c. induction l as [|[k a] l IH]; intros c.
  - right. left. split; [constructor|]. split; [simpl; intros j Hj; lia|reflexivity].
  - cbn [Checked.collapse_walk]. rewrite probability_of_spec.
    destruct (Checked.amp_overflows a) eqn:Ea; cbn [bind].
    + right. right. exists 0%nat, k, a. repeat split; try assumption.
      * constructor.
      * intros j Hj. lia.
    + destruct (rltb rand (radd c (rsq (cabs a)))) eqn:E.
      * left. exists 0%nat, k, a. repeat split.
        -- simpl. now repeat constructor.
        -- exact E.
        -- intros j Hj. lia.
      * destruct (IH (radd c (rsq (cabs a))))
          as [(m & k' & a' & Hn & Hf & Ht & Hb & Hw)
             |[(Hf & Hb & Hw)|(m & k' & a' & Hn & Hf & Ho & Hb & Hw)]].
        -- left. exists (S m), k', a'. repeat split; try assumption.
           ++ change (firstn (S (S m)) ((k, a) :: l))
                with ((k, a) :: firstn (S m) l). now constructor.
           ++ intros [|[|j]] Hj; [lia|exact E|]. apply (Hb (S j)). lia.
        -- right. left. repeat split; try assumption.
           ++ now constructor.
           ++ intros [|[|j]] Hj; [lia|exact E|]. apply (Hb (S j)).
              simpl in Hj. lia.
        -- right. right. exists (S m), k', a'. repeat split; try assumption.
           ++ change (firstn (S m) ((k, a) :: l)) with ((k, a) :: firstn m l).
              now constructor.
           ++ intros [|[|j]] Hj; [lia|exact E|]. apply (Hb (S j)). lia.
Qed.

(** The rule of [collapse_to_measurement].  The items are walked in sorted
    order, and [abs(amp)**2] is computed for each item that is reached.
    Either some item is the first whose running sum of probabilities
    exceeds the draw, and then it is the outcome and the register becomes
    that single state with amplitude [1+0i]; or no running sum exceeds the
    draw, and then the object is left as it was; or [abs(amp)**2] is too
    large for an item that is reached before any running sum exceeds the
    draw, and then [OverflowError] is raised and the object is as it
    was. *)
Theorem checked_measurement_rule (self : QuantumComputer) (rand : real) :
  let l := sorted (amplitudes self) in
  (exists m k a,
     nth_error l m = Some (k, a) /\
     Forall (fun b => Checked.amp_overflows (snd b) = false) (firstn (S m) l) /\
     rltb rand (cumulative_after l (S m)) = true /\
     (forall j, (1 <= j <= m)%nat -> rltb rand (cumulative_after l j) = false) /\
     Checked.collapse_to_measurement self rand =
       Ok (k, {| num_qubits := num_qubits self; amplitudes := [(k, cone)] |})) \/
  (Forall (fun b => Checked.amp_overflows (snd b) = false) l /\
   (forall j, (1 <= j <= List.length l)%nat ->
      rltb rand (cumulative_after l j) = false) /\
   Checked.collapse_to_measurement self rand =
     Ok (fst (collapse_to_measurement self rand), self)) \/
  (exists m k a,
     nth_error l m = Some (k, a) /\
     Forall (fun b => Checked.amp_overflows (snd b) = false) (firstn m l) /\
     Checked.amp_overflows a = true /\
     (forall j, (1 <= j <= m)%nat -> rltb rand (cumulative_after l j) = false) /\
     Checked.collapse_to_measurement self rand = Raise OverflowError).
Proof.
  intros l. unfold Checked.collapse_to_measurement, cumulative_after. fold l.
  destruct (checked_walk rand rzero l)
    as [(m & k & a & Hn & Hf & Ht & Hb & Hw)
       |[(Hf & Hb & Hw)|(m & k & a & Hn & Hf & Ho & Hb & Hw)]].
  - left. exists m, k, a. rewrite Hw. repeat split; assumption.
  - right. left. rewrite Hw. repeat split; try assumption. cbn [bind].
    unfold collapse_to_measurement. fold l.
    assert (E : collapse_walk rand rzero l = None).
    { apply collapse_walk_none. intros j Hj. now apply Hb. }
    rewrite E. reflexivity.
  - right. right. exists m, k, a. rewrite Hw. repeat split; assumption.
Qed.

(** *** [read_state] *)

Lemma show_items_spec (l : dict) :
  (Forall (fun b => Checked.amp_overflows (snd b) = false) l /\
   Checked.show_items l = (flat_map show_item l, None)) \/
  (exists pre k a post,
     l = (pre ++ (k, a) :: post)%list /\
     Forall (fun b => Checked.amp_overflows (snd b) = false) pre /\
     Checked.amp_overflows a = true /\
     Checked.show_items l = (flat_map show_item pre, Some OverflowError)).
Proof.
  induction l as [|[k a] l IH].
  - left. split; [constructor|reflexivity].
  - cbn [Checked.show_items]. rewrite probability_of_spec.
    destruct (Checked.amp_overflows a) eqn:Ea.
    + right. exists [], k, a, l. repeat split; [constructor|assumption].
    + destruct IH as [(Hf & E)|(pre & k' & a' & post & -> & Hf & Ho & E)];
        rewrite E.
      * left. split; [now constructor|reflexivity].
      * right. exists ((k, a) :: pre), k', a', post.
        repeat split; try assumption. now constructor.
Qed.

(** [read_state] prints a line for a state exactly when the state is stored
    and its probability [abs(amp)**2] exceeds [1e-9]; the line carries the
    stored amplitude and that probability.  That is so when [abs(amp)**2]
    is too large for no stored amplitude.  Otherwise it prints the banner
    and the lines of the states that come, in sorted order, before the first
    one for which it is too large, and raises [OverflowError]. *)
Theorem checked_read_state_lines (self : QuantumComputer) :
  let l := sorted (amplitudes self) in
  (Forall (fun b => Checked.amp_overflows (snd b) = false) l /\
   Checked.read_state self = (read_state self, None) /\
   forall k a p, In (StateLine k a p) (read_state self) <->
     In (k, a) (amplitudes self) /\ p = rsq (cabs a) /\ rltb tiny p = true) \/
  (exists pre k a post,
     l = (pre ++ (k, a) :: post)%list /\
     Forall (fun b => Checked.amp_overflows (snd b) = false) pre /\
     Checked.amp_overflows a = true /\
     Checked.read_state self =
       (Banner :: flat_map show_item pre, Some OverflowError)).
Proof.
  intros l. unfold Checked.read_state, read_state.
  destruct (show_items_spec l) as [(Hf & E)|(pre & k & a & post & El & Hf & Ho & E)].
  - left. split; [assumption|]. split; [|apply read_state_total_lines].
    destruct (amplitudes self) as [|x d] eqn:Ed; [reflexivity|].
    fold l. now rewrite E.
  - right. exists pre, k, a, post. repeat split; try assumption.
    destruct (amplitudes self) as [|x d] eqn:Ed.
    + exfalso. unfold l in El. simpl in El. destruct pre; discriminate.
    + fold l. now rewrite E.
Qed.

End Overflows.

(* ================================================================== *)
(** ** The entangling step as a controlled bit flip *)

Section ControlledFlip.

Context {AR : Arith}.

(** The dictionary after the two loops, read at a basis state. *)
Lemma swaps_lookup (d : dict) (n cj tj : nat) (k : string) :
  NoDup (keys d) -> Forall (fun s => bitstring n s = true) (keys d) ->
  (tj < n)%nat -> cj <> tj -> bitstring n k = true ->
  dict_get (fold_left entangle_swap
              (fold_left (collect_step cj tj) (keys d) []) d) k czero =
  dict_get d (if has_control cj k then flip_at tj k else k) czero.
Proof.
  intros Hnd Hbits Htj Hcj Hk.
  set (ps := fold_left (collect_step cj tj) (keys d) []).
  assert (C : collected cj tj (keys d) ps) by now apply (collected_keys n).
  destruct (has_control cj k) eqn:Hck.
  - destruct (in_dec string_dec k (members ps)) as [Hin|Hout].
    + apply (swaps_get_in tj); try assumption.
      * intros a b. apply (collected_partner n cj tj Htj (keys d) ps a b Hbits C).
      * apply (col_nodup _ _ _ _ C).
    + rewrite swaps_get_out by assumption.
      assert (Hk1 : ~ In k (keys d)).
      { intros Hin. apply Hout. now apply (col_cover _ _ _ _ C). }
      assert (Hk2 : ~ In (flip_at tj k) (keys d)).
      { intros Hin. apply Hout.
        assert (Hm : In (flip_at tj k) (members ps)).
        { apply (col_cover _ _ _ _ C); [assumption|].
          now rewrite has_control_flip_at. }
        destruct (collected_members n cj tj Htj Hcj _ _ _ Hbits C Hm)
          as (_ & _ & Hf & _).
        now rewrite (flip_at_involutive n tj Htj k Hk) in Hf. }
      now rewrite !get_absent.
  - apply swaps_get_out. intros Hin.
    apply collect_members_control in Hin; [|assumption]. congruence.
Qed.

Lemma swaps_bitstrings (d : dict) (n cj tj : nat) :
  Forall (fun s => bitstring n s = true) (keys d) ->
  Forall (fun s => bitstring n s = true)
         (keys (fold_left entangle_swap
                  (fold_left (collect_step cj tj) (keys d) []) d)).
Proof.
  intros Hbits. apply Forall_forall. intros k Hk. apply in_keys_swaps in Hk.
  rewrite Forall_forall in Hbits. destruct Hk as [Hk|Hk]; [now apply Hbits|].
  apply in_members in Hk. destruct Hk as (a & b & Hab & Hk).
  apply collect_pairs in Hab. destruct Hab as [[]|(Ha & _ & Hb)].
  simpl in *. destruct Hk as [-> | ->]; [now apply Hbits|].
  rewrite Hb. apply bitstring_flip_at. now apply Hbits.
Qed.

(** Where the control bit is 1, [entangle_qubits] exchanges the amplitudes
    of a basis state and of its partner: afterwards each such state has the
    amplitude that its partner had, stored or not. *)
Theorem entangle_flips_control_one (self : QuantumComputer) (c t : Z) (n : nat) :
  register n (amplitudes self) = true ->
  0 <= c < Z.of_nat n -> 0 <= t < Z.of_nat n -> c <> t ->
  exists out,
    entangle_qubits self c t = Ok out /\
    forall k, bitstring n k = true -> has_control (Z.to_nat c) k = true ->
      _get_amplitude out k = _get_amplitude self (flip_at (Z.to_nat t) k).
Proof.
  intros Hreg Hc Ht Hne. destruct (register_spec _ _ Hreg) as [Hnd Hbits].
  assert (Hlen : Forall (fun k => String.length k = n) (keys (amplitudes self))).
  { eapply Forall_impl; [|exact Hbits]. intros s. apply bitstring_length. }
  eexists. split; [apply (entangle_qubits_ok _ _ _ _ Hlen Hc Ht)|].
  intros k Hk Hck. unfold _get_amplitude. simpl.
  rewrite (swaps_lookup _ n) by (assumption || lia).
  now rewrite Hck.
Qed.

(** On the empty register nothing is read, so nothing can fail: whatever
    the matrix and the indices, [apply_gate] and [entangle_qubits] return
    the empty register, a measurement returns the empty string and leaves
    it empty, and [read_state] prints the notice for it. *)
Theorem empty_register_accepts_everything (nq : Z) (m : matrix) (c t : Z)
    (rand : real) :
  let nothing := {| num_qubits := nq; amplitudes := [] |} in
  apply_gate nothing m t = Ok nothing /\
  entangle_qubits nothing c t = Ok nothing /\
  collapse_to_measurement nothing rand = ("", nothing) /\
  read_state nothing = [Banner; EmptyUniverse].
Proof. repeat split. Qed.

(** A key that is no basis state stops [apply_gate] at its first entry:
    [ValueError] for a character that is no digit at the target position,
    [IndexError] for a digit from 2 to 9 with a 2x2 matrix.
    [entangle_qubits] reads the same characters without converting them and
    returns, whatever they are. *)
Theorem malformed_key (self : QuantumComputer) (m : matrix) (n : nat) (t c : Z)
    (k : string) (a : complex) (rest : dict) (ch : ascii) :
  amplitudes self = (k, a) :: rest ->
  Forall (fun k' => String.length k' = n) (keys (amplitudes self)) ->
  0 <= t < Z.of_nat n -> 0 <= c < Z.of_nat n ->
  String.get (Z.to_nat t) k = Some ch ->
  ((nat_of_ascii ch < 48 \/ 57 < nat_of_ascii ch)%nat ->
     apply_gate self m t = Raise ValueError) /\
  ((50 <= nat_of_ascii ch <= 57)%nat -> two_by_two m = true ->
     apply_gate self m t = Raise IndexError) /\
  (exists out, entangle_qubits self c t = Ok out).
Proof.
  intros E Hlen Ht Hc Hget.
  assert (Hk : String.length k = n).
  { rewrite E in Hlen. now inversion Hlen. }
  assert (Hstr : str_get k t = Ok ch).
  { unfold str_get. rewrite py_index_in by lia. simpl. now rewrite Hget. }
  split; [|split].
  - intros Hch. unfold apply_gate. rewrite E. simpl. rewrite Hstr. simpl.
    unfold py_int.
    replace ((48 <=? nat_of_ascii ch)%nat && (nat_of_ascii ch <=? 57)%nat)
      with false; [reflexivity|].
    symmetry. apply andb_false_iff.
    destruct Hch as [H|H]; [left; apply Nat.leb_gt|right; apply Nat.leb_gt];
      assumption.
  - intros Hch Hm. unfold apply_gate. rewrite E. simpl. rewrite Hstr. simpl.
    unfold py_int.
    replace ((48 <=? nat_of_ascii ch)%nat && (nat_of_ascii ch <=? 57)%nat)
      with true.
    2:{ symmetry. apply andb_true_iff. split; apply Nat.leb_le; lia. }
    cbn [bind].
    destruct m as [|[|m00 [|m01 [|]]] [|[|m10 [|m11 [|]]] [|]]]; try discriminate.
    assert (G : mat_get [[m00; m01]; [m10; m11]] 0 (nat_of_ascii ch - 48) =
                Raise IndexError).
    { unfold mat_get. cbn [list_get py_index Z.of_nat List.length nth_error bind
                           Z.ltb Z.leb Z.compare andb Z.to_nat].
      unfold list_get. rewrite py_index_out; [reflexivity|].
      left. simpl List.length. lia. }
    cbn [seq for_each]. unfold gate_row at 1. now rewrite G.
  - eexists. apply (entangle_qubits_ok self c t n Hlen Hc Ht).
Qed.

(** *** How much the dictionary can grow *)

Lemma length_dict_set (d : dict) (k : string) (v : complex) :
  (List.length d <= List.length (dict_set d k v) <= S (List.length d))%nat.
Proof.
  induction d as [|[k0 v0] d IH]; simpl; [lia|].
  destruct (String.eqb k0 k); simpl; lia.
Qed.

Lemma length_accumulate (cs : list (string * complex)) (next : dict) :
  (List.length (accumulate next cs) <= List.length next + List.length cs)%nat.
Proof.
  revert next. induction cs as [|kc cs IH]; intros next; simpl; [lia|].
  eapply Nat.le_trans; [apply IH|].
  pose proof (length_dict_set next (fst kc)
                (cadd (dict_get next (fst kc) czero) (snd kc))). lia.
Qed.

Lemma length_row_contribution (m : matrix) (t : Z) (s : string) (a : complex)
    (bit row : nat) (cs : list (string * complex)) :
  row_contribution m t s a bit row = Ok cs -> (List.length cs <= 1)%nat.
Proof.
  unfold row_contribution.
  destruct (mat_get m row bit) as [x|e]; simpl; [|discriminate].
  destruct (rltb (cabs (cmul x a)) tiny).
  - intros [= <-]. simpl. lia.
  - destruct (list_set (py_list s) t (py_str row)); simpl; [|discriminate].
    intros [= <-]. simpl. lia.
Qed.

Lemma length_contributions (m : matrix) (t : Z) (d : dict)
    (cs : list (string * complex)) :
  contributions m t d = Ok cs -> (List.length cs <= 2 * List.length d)%nat.
Proof.
  revert cs. induction d as [|item d IH]; intros cs; simpl.
  - intros [= <-]. simpl. lia.
  - unfold item_contributions.
    destruct (str_get (fst item) t) as [ch|e]; simpl; [|discriminate].
    destruct (py_int ch) as [bit|e]; simpl; [|discriminate].
    destruct (row_contribution m t (fst item) (snd item) bit 0) as [c0|e] eqn:E0;
      simpl; [|discriminate].
    destruct (row_contribution m t (fst item) (snd item) bit 1) as [c1|e] eqn:E1;
      simpl; [|discriminate].
    destruct (contributions m t d) as [cs'|e]; simpl; [|discriminate].
    intros [= <-]. rewrite !length_app.
    apply length_row_contribution in E0, E1.
    specialize (IH cs' eq_refl). lia.
Qed.

Lemma length_collect (c t : Z) (ks : list string) (acc ps : list (string * string)) :
  for_each (entangle_collect c t) ks acc = Ok ps ->
  (List.length ps <= List.length acc + List.length ks)%nat.
Proof.
  revert acc. induction ks as [|k ks IH]; intros acc; simpl.
  - intros [= <-]. lia.
  - destruct (entangle_collect c t acc k) as [acc'|e] eqn:E; simpl; [|discriminate].
    intros H. apply IH in H.
    assert (List.length acc' <= S (List.length acc))%nat; [|lia].
    unfold entangle_collect in E.
    destruct (str_get k c) as [ch|e]; simpl in E; [|discriminate].
    destruct (Ascii.eqb ch "1"); [|injection E as <-; lia].
    destruct (list_get (py_list k) t) as [old|e]; simpl in E; [|discriminate].
    destruct (list_set (py_list k) t _) as [sl|e]; simpl in E; [|discriminate].
    destruct (pair_in _ acc); injection E as <-; [lia|].
    rewrite length_app. simpl. lia.
Qed.

Lemma collect_firsts (c t : Z) (ks : list string) (acc ps : list (string * string)) :
  for_each (entangle_collect c t) ks acc = Ok ps ->
  forall p, In p ps -> In p acc \/ In (fst p) ks.
Proof.
  revert acc. induction ks as [|k ks IH]; intros acc; simpl.
  - intros [= <-] p Hp. now left.
  - destruct (entangle_collect c t acc k) as [acc'|e] eqn:E; simpl; [|discriminate].
    intros H p Hp. destruct (IH _ H p Hp) as [Hp'|Hp']; [|tauto].
    unfold entangle_collect in E.
    destruct (str_get k c) as [ch|e]; simpl in E; [|discriminate].
    destruct (Ascii.eqb ch "1"); [|injection E as <-; tauto].
    destruct (list_get (py_list k) t) as [old|e]; simpl in E; [|discriminate].
    destruct (list_set (py_list k) t _) as [sl|e]; simpl in E; [|discriminate].
    destruct (pair_in _ acc); injection E as <-; [tauto|].
    apply in_app_or in Hp'. destruct Hp' as [Hp'|[<-|[]]]; [tauto|].
    right. now left.
Qed.

Lemma length_dict_set_present (d : dict) (k : string) (v : complex) :
  In k (keys d) -> List.length (dict_set d k v) = List.length d.
Proof.
  induction d as [|[k0 v0] d IH]; intros H; simpl; [contradiction|].
  destruct (String.eqb k0 k) eqn:E; simpl; [reflexivity|].
  f_equal. apply IH. destruct H as [H|H]; [|assumption].
  apply String.eqb_neq in E. simpl in H. congruence.
Qed.

Lemma length_swaps (ps : list (string * string)) (d : dict) :
  (forall p, In p ps -> In (fst p) (keys d)) ->
  (List.length d <= List.length (fold_left entangle_swap ps d)
                 <= List.length d + List.length ps)%nat.
Proof.
  revert d. induction ps as [|[a b] ps IH]; intros d H; simpl; [lia|].
  assert (Ha : In a (keys d)) by (apply (H (a, b)); now left).
  assert (IH' := IH (entangle_swap d (a, b))).
  unfold entangle_swap in *.
  pose proof (length_dict_set_present d a (dict_get d b czero) Ha) as H1.
  pose proof (length_dict_set (dict_set d a (dict_get d b czero)) b
                              (dict_get d a czero)) as H2.
  assert (G : forall p, In p ps ->
            In (fst p) (keys (dict_set (dict_set d a (dict_get d b czero)) b
                                       (dict_get d a czero)))).
  { intros p Hp. apply in_keys_dict_set. right. apply in_keys_dict_set. right.
    apply H. now right. }
  specialize (IH' G). lia.
Qed.

(** Whenever they return, [apply_gate] leaves at most twice as many entries
    as it found, and [entangle_qubits] removes none and leaves at most twice
    as many. *)
Theorem entries_bounded (self out : QuantumComputer) :
  (forall m t, apply_gate self m t = Ok out ->
     (List.length (amplitudes out) <= 2 * List.length (amplitudes self))%nat) /\
  (forall c t, entangle_qubits self c t = Ok out ->
     (List.length (amplitudes self) <= List.length (amplitudes out)
        <= 2 * List.length (amplitudes self))%nat).
Proof.
  split.
  - intros m t H. rewrite apply_gate_accumulate in H.
    destruct (contributions m t (amplitudes self)) as [cs|e] eqn:E;
      simpl in H; [|discriminate].
    injection H as <-. simpl.
    pose proof (length_accumulate cs []) as H1.
    apply length_contributions in E. simpl in H1. lia.
  - intros c t H. unfold entangle_qubits in H.
    destruct (for_each (entangle_collect c t) (keys (amplitudes self)) [])
      as [ps|e] eqn:E; simpl in H; [|discriminate].
    injection H as <-. simpl.
    pose proof (length_collect _ _ _ _ _ E) as Hl.
    unfold keys in Hl. rewrite length_map in Hl. simpl in Hl.
    assert (G : forall p, In p ps -> In (fst p) (keys (amplitudes self))).
    { intros p Hp. destruct (collect_firsts _ _ _ _ _ E p Hp) as [[]|Hk].
      exact Hk. }
    pose proof (length_swaps ps (amplitudes self) G). lia.
Qed.

End ControlledFlip.

(* ================================================================== *)
(** ** Amplitudes after the operations, in exact arithmetic *)

Module ExactMore.

Import Exact ExactGates ExactNorm.
Local Open Scope R_scope.

(** The amplitude of every basis state after [apply_gate]: the two entries
    of its row of the matrix times the amplitudes of the two states that
    differ from it at most at the target, each product counted as zero when
    its magnitude is below [1e-9].  Strings that are no basis states have
    no amplitude. *)
Theorem amplitude_after_gate (self : QuantumComputer) (m : matrix) (n : nat)
    (t : Z) :
  two_by_two m = true ->
  register n (amplitudes self) = true ->
  (0 <= t < Z.of_nat n)%Z ->
  exists out,
    apply_gate self m t = Ok out /\
    (forall k, bitstring n k = true ->
       _get_amplitude out k = gate_at m (Z.to_nat t) (_get_amplitude self) k) /\
    (forall k, bitstring n k = false -> _get_amplitude out k = (0, 0)).
Proof.
  intros Hm Hreg Ht. destruct (register_spec _ _ Hreg) as [Hnd Hbits].
  assert (Hb : forallb (bitstring n) (keys (amplitudes self)) = true).
  { unfold register in Hreg. apply andb_true_iff in Hreg. tauto. }
  eexists. split; [apply (apply_gate_ok self m n t Hm Hb Ht)|]. split.
  - intros k Hk. unfold _get_amplitude at 1. simpl amplitudes.
    rewrite (get_after_gate m n) by (assumption || lia). reflexivity.
  - intros k Hk. unfold _get_amplitude. simpl amplitudes.
    apply dict_get_absent. intros Hin.
    pose proof (bitstrings_after_gate m n (Z.to_nat t) _ Hbits) as Hout.
    rewrite Forall_forall in Hout. rewrite (Hout k Hin) in Hk. discriminate.
Qed.

(** *** The entangling step keeps the total probability *)

Lemma Rsum_perm {A : Type} (f : A -> R) (l1 l2 : list A) :
  Permutation l1 l2 -> Rsum f l1 = Rsum f l2.
Proof.
  induction 1 as [|x l1 l2 Hp IH|x y l|l1 l2 l3 H1 IH1 H2 IH2]; simpl.
  - reflexivity.
  - now rewrite IH.
  - ring.
  - now rewrite IH1.
Qed.

Lemma partner_bitstring (n cj tj : nat) (k : string) :
  bitstring n k = true -> bitstring n (partner cj tj k) = true.
Proof.
  intros Hk. unfold partner. destruct (has_control cj k); [|assumption].
  now apply bitstring_flip_at.
Qed.

Lemma partner_involutive (n cj tj : nat) (k : string) :
  (tj < n)%nat -> cj <> tj -> bitstring n k = true ->
  partner cj tj (partner cj tj k) = k.
Proof.
  intros Htj Hne Hk. unfold partner. destruct (has_control cj k) eqn:E.
  - rewrite has_control_flip_at, E by assumption.
    now apply (flip_at_involutive n).
  - now rewrite E.
Qed.

Lemma partner_states (n cj tj : nat) :
  (tj < n)%nat -> cj <> tj ->
  Permutation (map (partner cj tj) (all_states n)) (all_states n).
Proof.
  intros Htj Hne. apply Permutation_map_same_l.
  - apply Injective_map_NoDup_in; [|apply nodup_all_states].
    intros x y Hx Hy E. apply in_all_states in Hx, Hy.
    rewrite <- (partner_involutive n cj tj x), <- (partner_involutive n cj tj y)
      by assumption.
    now rewrite E.
  - intros k Hk. apply in_map_iff in Hk. destruct Hk as (x & <- & Hx).
    apply in_all_states. apply partner_bitstring. now apply in_all_states.
Qed.

(** [entangle_qubits] only moves amplitudes between basis states, so the sum
    of the squared magnitudes over the register is what it was. *)
Theorem entangle_keeps_total (self : QuantumComputer) (c t : Z) (n : nat) :
  register n (amplitudes self) = true ->
  (0 <= c < Z.of_nat n)%Z -> (0 <= t < Z.of_nat n)%Z -> c <> t ->
  exists out,
    entangle_qubits self c t = Ok out /\
    total_probability (amplitudes out) = total_probability (amplitudes self).
Proof.
  intros Hreg Hc Ht Hne. destruct (register_spec _ _ Hreg) as [Hnd Hbits].
  assert (Hlen : Forall (fun k => String.length k = n) (keys (amplitudes self))).
  { eapply Forall_impl; [|exact Hbits]. intros s. apply bitstring_length. }
  eexists. split; [apply (entangle_qubits_ok _ _ _ _ Hlen Hc Ht)|].
  simpl amplitudes.
  set (cj := Z.to_nat c). set (tj := Z.to_nat t).
  assert (Htj : (tj < n)%nat) by (unfold tj; lia).
  assert (Hcj : cj <> tj) by (unfold cj, tj; lia).
  rewrite <- (total_over_states n); [|now apply nodup_keys_swaps
                                      |now apply swaps_bitstrings].
  rewrite <- (total_over_states n (amplitudes self)) by assumption.
  rewrite (Rsum_ext _ (fun k => norm2 (dict_get (amplitudes self)
                                                 (partner cj tj k) czero))).
  - rewrite <- (Rsum_map (partner cj tj)
                         (fun k => norm2 (dict_get (amplitudes self) k czero))).
    apply Rsum_perm. now apply partner_states.
  - intros k Hk. apply in_all_states in Hk.
    now rewrite (swaps_lookup _ n) by assumption.
Qed.

(** *** The two gates of the source *)

(** *** [PauliX] twice *)

Lemma pauli_x_at (j : nat) (f : string -> cplx) (k : string) :
  gate_at PauliX j f k = keep0 (f (put_at j (1 - bit_at j k) k)).
Proof.
  unfold gate_at, PauliX, entry.
  pose proof (bit_at_lt j k) as Hb.
  destruct (bit_at j k) as [|[|b]]; [| |lia]; cbn [nth Nat.sub].
  - replace (c_mul (0, 0) (f (put_at j 0 k))) with ((0, 0) : cplx)
      by (unfold c_mul; simpl; f_equal; ring).
    replace (c_mul (1, 0) (f (put_at j 1 k))) with (f (put_at j 1 k))
      by (destruct (f (put_at j 1 k)); unfold c_mul; simpl; f_equal; ring).
    now rewrite keep0_zero, c_add_0_l.
  - replace (c_mul (0, 0) (f (put_at j 1 k))) with ((0, 0) : cplx)
      by (unfold c_mul; simpl; f_equal; ring).
    replace (c_mul (1, 0) (f (put_at j 0 k))) with (f (put_at j 0 k))
      by (destruct (f (put_at j 0 k)); unfold c_mul; simpl; f_equal; ring).
    now rewrite keep0_zero, c_add_0_r.
Qed.

Lemma keep0_idempotent (z : cplx) : keep0 (keep0 z) = keep0 z.
Proof.
  destruct (rltb (cabs (z : @complex arith)) tiny) eqn:E.
  - unfold keep0 at 2 3. rewrite E. apply keep0_zero.
  - unfold keep0 at 2 3. rewrite E. unfold keep0. now rewrite E.
Qed.

(** On a register whose stored amplitudes all have magnitude at least
    [1e-9], applying [PauliX] to the same qubit twice gives every basis
    state its amplitude back. *)
Theorem pauli_x_twice (self : QuantumComputer) (n : nat) (t : Z) :
  register n (amplitudes self) = true ->
  (0 <= t < Z.of_nat n)%Z ->
  Forall (fun kv => rltb (cabs (snd kv)) tiny = false) (amplitudes self) ->
  exists once twice,
    apply_gate self PauliX t = Ok once /\
    apply_gate once PauliX t = Ok twice /\
    forall k, _get_amplitude twice k = _get_amplitude self k.
Proof.
  intros Hreg Ht Hbig. destruct (register_spec _ _ Hreg) as [Hnd Hbits].
  assert (Hb : forallb (bitstring n) (keys (amplitudes self)) = true).
  { unfold register in Hreg. apply andb_true_iff in Hreg. tauto. }
  pose proof (apply_gate_ok self PauliX n t eq_refl Hb Ht) as E1.
  set (j := Z.to_nat t) in *. assert (Hj : (j < n)%nat) by (unfold j; lia).
  set (d1 := accumulate [] (flat_map (item_kept PauliX j) (amplitudes self))) in *.
  assert (Hnd1 : NoDup (keys d1)) by (apply nodup_accumulate; constructor).
  assert (Hbits1 : Forall (fun s => bitstring n s = true) (keys d1))
    by now apply bitstrings_after_gate.
  assert (Hb1 : forallb (bitstring n) (keys d1) = true).
  { apply forallb_forall. now apply Forall_forall. }
  pose proof (apply_gate_ok {| num_qubits := num_qubits self; amplitudes := d1 |}
                PauliX n t eq_refl Hb1 Ht) as E2.
  eexists. eexists. split; [exact E1|]. split; [exact E2|].
  intros k. unfold _get_amplitude. cbn [amplitudes]. fold j.
  assert (Hkeep : keep0 (dict_get (amplitudes self) k czero) =
                  dict_get (amplitudes self) k czero).
  { destruct (dict_get_default_or_in (amplitudes self) k czero) as [[E _]|Hin].
    - rewrite E. apply keep0_zero.
    - rewrite Forall_forall in Hbig. specialize (Hbig _ Hin). cbn [snd] in Hbig.
      unfold keep0. now rewrite Hbig. }
  destruct (bitstring n k) eqn:Hk.
  - rewrite (get_after_gate PauliX n j d1 k) by assumption.
    rewrite pauli_x_at.
    pose proof (bit_at_lt j k) as Hlt.
    assert (Hk' : bitstring n (put_at j (1 - bit_at j k) k) = true).
    { apply bitstring_put_at; [assumption|lia]. }
    unfold d1.
    rewrite (get_after_gate PauliX n j (amplitudes self)) by assumption.
    rewrite pauli_x_at, keep0_idempotent.
    pose proof (bitstring_length _ _ Hk) as Lk.
    rewrite bit_at_put_at by lia.
    replace (1 - (1 - bit_at j k))%nat with (bit_at j k) by lia.
    rewrite put_at_twice, (put_at_own_bit n) by assumption.
    exact Hkeep.
  - assert (H1 : ~ In k (keys (accumulate [] (flat_map (item_kept PauliX j) d1)))).
    { intros Hin.
      pose proof (bitstrings_after_gate PauliX n j d1 Hbits1) as Hout.
      rewrite Forall_forall in Hout. rewrite (Hout k Hin) in Hk. discriminate. }
    assert (H0 : ~ In k (keys (amplitudes self))).
    { intros Hin. rewrite Forall_forall in Hbits.
      rewrite (Hbits k Hin) in Hk. discriminate. }
    now rewrite !dict_get_absent.
Qed.

(** *** The state that a measurement chooses *)

Lemma cumulative_step (l : dict) (m : nat) (k : string) (a : cplx) :
  nth_error l m = Some (k, a) ->
  cumulative_after l m + norm2 a = cumulative_after l (S m).
Proof.
  unfold cumulative_after. generalize (@rzero arith).
  revert m. induction l as [|[k0 a0] l IH]; intros m c H.
  - destruct m; discriminate.
  - destruct m as [|m].
    + injection H as -> ->. simpl. now rewrite c_abs_sq.
    + simpl in H. simpl firstn. simpl fold_left. now apply IH.
Qed.

(** The loop of a measurement, with a draw that is not negative, returns
    only a state whose stored amplitude is not zero. *)
Theorem chosen_state_is_possible (self : QuantumComputer) (rand : R) (s : string) :
  0 <= rand ->
  collapse_walk rand rzero (sorted (amplitudes self)) = Some s ->
  exists a, In (s, a) (amplitudes self) /\ 0 < norm2 a.
Proof.
  intros Hr H. destruct (collapse_walk_some _ _ _ _ H) as (m & a & Hn & Ht & Hf).
  exists a. split; [apply in_sorted; eapply nth_error_In; eassumption|].
  fold (cumulative_after (sorted (amplitudes self)) (S m)) in Ht.
  rewrite <- (cumulative_step _ _ _ _ Hn) in Ht.
  assert (Hm : cumulative_after (sorted (amplitudes self)) m <= rand).
  { destruct m as [|m]; [unfold cumulative_after; simpl; exact Hr|].
    specialize (Hf (S m)).
    fold (cumulative_after (sorted (amplitudes self)) (S m)) in Hf.
    simpl in Hf. destruct (Rlt_dec rand _) as [L|L] in Hf.
    - assert (true = false) by (apply Hf; lia). discriminate.
    - lra. }
  simpl in Ht. destruct (Rlt_dec rand _) as [L|L] in Ht; [lra|discriminate].
Qed.

Lemma one_is_big : @rltb arith (c_abs (1, 0)) eps = false.
Proof.
  destruct (@rltb arith (c_abs (1, 0)) eps) eqn:E; [|reflexivity].
  apply small_iff in E. revert E. unfold eps, norm2. simpl. lra.
Qed.

Lemma amplitude_after_gate_witness :
  exists out,
    apply_gate single_zero rotation 0 = Ok out /\
    (forall k, bitstring 1 k = true ->
       _get_amplitude out k =
       gate_at rotation (Z.to_nat 0) (_get_amplitude single_zero) k) /\
    (forall k, bitstring 1 k = false -> _get_amplitude out k = (0, 0)).
Proof.
  apply (amplitude_after_gate single_zero rotation 1 0);
    [reflexivity|reflexivity|lia].
Defined.

Lemma entangle_keeps_total_witness :
  exists out,
    entangle_qubits ExactSamples.one_zero 0 1 = Ok out /\
    total_probability (amplitudes out) =
    total_probability (amplitudes ExactSamples.one_zero).
Proof.
  apply (entangle_keeps_total ExactSamples.one_zero 0 1 2);
    [reflexivity|lia|lia|lia].
Defined.

Lemma pauli_x_twice_witness :
  exists once twice,
    apply_gate single_zero PauliX 0 = Ok once /\
    apply_gate once PauliX 0 = Ok twice /\
    forall k, _get_amplitude twice k = _get_amplitude single_zero k.
Proof.
  apply (pauli_x_twice single_zero 1 0); [reflexivity|lia|].
  constructor; [exact one_is_big|constructor].
Defined.

Lemma chosen_state_is_possible_witness :
  exists a, In ("0"%string, a) (amplitudes single_zero) /\ 0 < norm2 a.
Proof.
  apply (chosen_state_is_possible single_zero 0 "0"); [lra|].
  cbn [single_zero amplitudes sorted fold_right insert_item collapse_walk snd fst].
  destruct (rltb _ _) eqn:E; [reflexivity|].
  exfalso. revert E. cbn [rltb radd rzero rsq cabs arith].
  destruct (Rlt_dec _ _) as [L|L]; [discriminate|]. intros _. apply L.
  unfold c_abs. simpl. replace (1 * 1 + 0 * 0) with 1 by ring.
  rewrite sqrt_1. lra.
Defined.

Lemma checked_gate_keeps_register_witness :
  exists out,
    Checked.apply_gate single_zero rotation 0 = Ok out /\
    apply_gate single_zero rotation 0 = Ok out /\
    num_qubits out = num_qubits single_zero /\
    register 1 (amplitudes out) = true.
Proof.
  destruct (checked_gate_keeps_register single_zero rotation 1 0
              eq_refl eq_refl ltac:(lia)) as [[H _]|[_ H]].
  - discriminate H.
  - exact H.
Defined.

End ExactMore.

(* ================================================================== *)
(** ** The script and repeated measurement, in binary64 *)

Module DriverFacts.

Import F64 Scenario Driver.

(** Whatever the draw, the script reports [00] or [11], never [01] or [10],
    although [10] is a key when the measurement starts.  Either the object
    ends as the single state reported, which the last [read_state] prints
    with amplitude 1, or the loop of the measurement found no state, the
    report is [11] and the three entries are still there. *)
Theorem script_outcome (rand : float) :
  exists shown1 shown2 shown3 shown4 final_outcome my_computer,
    main rand =
      Ok ([shown1; shown2; shown3; shown4], final_outcome, my_computer) /\
    (final_outcome = "00" \/ final_outcome = "11") /\
    shown3 = [Banner;
              StateLine "00" (amp inv_sqrt2) (inv_sqrt2 * inv_sqrt2)%float;
              StateLine "11" (amp inv_sqrt2) (inv_sqrt2 * inv_sqrt2)%float;
              Rule] /\
    ((my_computer = computer 2 [(final_outcome, amp 1)] /\
      shown4 = [Banner; StateLine final_outcome (amp 1) 1%float; Rule]) \/
     (final_outcome = "11" /\
      my_computer = computer 2 [("00", amp inv_sqrt2); ("10", amp 0);
                                ("11", amp inv_sqrt2)] /\
      shown4 = shown3)).
Proof.
  unfold main. vm_compute.
  repeat match goal with
         | |- context [PrimFloat.ltb rand ?c] =>
             destruct (PrimFloat.ltb rand c) eqn:?
         end;
    do 6 eexists; (split; [reflexivity|]); vm_compute; auto 10.
Qed.

(** A measurement can be repeated: once the loop has chosen a state, any
    further measurement with a draw below 1 returns that state again and
    leaves the object as it is. *)
Theorem measurement_repeats (self : QuantumComputer) (rand1 rand2 : float)
    (s : string) :
  collapse_walk rand1 rzero (sorted (amplitudes self)) = Some s ->
  PrimFloat.ltb rand2 1 = true ->
  collapse_to_measurement (snd (collapse_to_measurement self rand1)) rand2 =
  (s, snd (collapse_to_measurement self rand1)).
Proof.
  intros H1 H2. rewrite (collapse_chosen _ _ _ H1). cbn [snd].
  unfold collapse_to_measurement. cbn [amplitudes num_qubits sorted fold_right
    insert_item collapse_walk snd].
  assert (E : rltb rand2 (radd rzero (rsq (cabs cone))) = true)
    by (rewrite <- H2; vm_compute; reflexivity).
  now rewrite E.
Qed.

Lemma measurement_repeats_witness :
  collapse_to_measurement (snd (collapse_to_measurement plus_zero draw_03))
                          draw_09 =
  ("00"%string, snd (collapse_to_measurement plus_zero draw_03)).
Proof.
  apply (measurement_repeats plus_zero draw_03 draw_09 "00");
    vm_compute; reflexivity.
Defined.

End DriverFacts.

(* ================================================================== *)
(** ** Runs of the register, measurement and key lemmas, in binary64 *)

Module MoreRuns.

Import F64 Scenario Samples.

Lemma plus_zero_keys : NoDup (keys (amplitudes plus_zero)).
Proof.
  repeat constructor; simpl; intuition discriminate.
Qed.

Lemma get_amplitude_lookup_witness :
  _get_amplitude plus_zero "10" = amp inv_sqrt2 /\
  _get_amplitude plus_zero "01" = czero.
Proof.
  split.
  - apply (proj1 (get_amplitude_lookup plus_zero "10" plus_zero_keys)).
    simpl. auto.
  - apply (proj2 (get_amplitude_lookup plus_zero "01" plus_zero_keys)).
    simpl. intuition discriminate.
Defined.

Lemma entangle_keeps_register_witness :
  exists out,
    entangle_qubits plus_zero 0 1 = Ok out /\
    num_qubits out = num_qubits plus_zero /\
    register 2 (amplitudes out) = true /\
    forall k, In k (keys (amplitudes out)) <->
      In k (keys (amplitudes plus_zero)) \/
      exists s, In s (keys (amplitudes plus_zero)) /\
                has_control (Z.to_nat 0) s = true /\
                k = flip_at (Z.to_nat 1) s.
Proof.
  apply (entangle_keeps_register plus_zero 0 1 2); [reflexivity|lia|lia].
Defined.

Lemma collapse_keeps_register_witness :
  num_qubits (snd (collapse_to_measurement plus_zero draw_03)) =
    num_qubits plus_zero /\
  register 2 (amplitudes (snd (collapse_to_measurement plus_zero draw_03)))
    = true /\
  (amplitudes (snd (collapse_to_measurement plus_zero draw_03)) =
     amplitudes plus_zero \/
   amplitudes (snd (collapse_to_measurement plus_zero draw_03)) =
     [(fst (collapse_to_measurement plus_zero draw_03), cone)]) /\
  (amplitudes plus_zero <> [] ->
   In (fst (collapse_to_measurement plus_zero draw_03))
      (keys (amplitudes plus_zero))).
Proof.
  apply (collapse_keeps_register plus_zero draw_03 2). reflexivity.
Defined.

Lemma insertion_order_is_irrelevant_witness :
  fst (collapse_to_measurement halves draw_03) =
  fst (collapse_to_measurement halves_reordered draw_03) /\
  read_state halves = read_state halves_reordered.
Proof.
  apply (insertion_order_is_irrelevant halves halves_reordered draw_03).
  - apply perm_swap.
  - repeat constructor; simpl; intuition discriminate.
Defined.

Lemma entangle_flips_control_one_witness :
  exists out,
    entangle_qubits plus_zero 0 1 = Ok out /\
    forall k, bitstring 2 k = true -> has_control (Z.to_nat 0) k = true ->
      _get_amplitude out k = _get_amplitude plus_zero (flip_at (Z.to_nat 1) k).
Proof.
  apply (entangle_flips_control_one plus_zero 0 1 2); [reflexivity|lia|lia|lia].
Defined.

Lemma malformed_key_witness :
  apply_gate letter_x Hadamard 0 = Raise ValueError /\
  apply_gate digit_two Hadamard 0 = Raise IndexError /\
  exists out, entangle_qubits digit_two 0 0 = Ok out.
Proof.
  assert (L : forall k a,
             Forall (fun k' => String.length k' = 1%nat)
                    (keys (amplitudes (computer 1 [(String k "", a)])))).
  { intros k a. repeat constructor. }
  destruct (malformed_key letter_x Hadamard 1 0 0 "x" (amp 1) [] "x"%char
              eq_refl (L _ _) ltac:(lia) ltac:(lia) eq_refl) as (H1 & _ & _).
  destruct (malformed_key digit_two Hadamard 1 0 0 "2" (amp 1) [] "2"%char
              eq_refl (L _ _) ltac:(lia) ltac:(lia) eq_refl) as (_ & H2 & H3).
  split; [|split].
  - apply H1. right. vm_compute. lia.
  - apply H2; [vm_compute; lia|reflexivity].
  - exact H3.
Defined.

Lemma entries_bounded_witness :
  (List.length (amplitudes plus_zero) <= 2 * List.length (amplitudes fresh))%nat.
Proof.
  apply (proj1 (entries_bounded fresh plus_zero) Hadamard 0).
  vm_compute. reflexivity.
Defined.

End MoreRuns.
